(** * cesium-geojson: the upload / validate / persist / retrieve pipeline

    A shallow embedding of the Express server of the repository
    (the [zod] schema [geojsonSchema], the handlers
    [GET /api/geojson/:id] and [POST /api/geojson]) together with the
    pieces of the platform the handlers call: [JSON.stringify],
    [JSON.parse], [path.join], [fs.promises.stat] and
    [fs.promises.writeFile]. *)

From Stdlib Require Import Ascii String DecimalZ.
From Stdlib Require QArith.
From stdpp Require Import gmap strings list fin_maps.

Local Open Scope char_scope.

(** The double quote, character 34. *)
Abbreviation dquote := (Ascii false true false false false true false false).

(** ** JavaScript values that JSON can carry *)

(** A JS number is an IEEE-754 double.  The server never computes with
    numbers, it only moves them from a JSON text to a JSON text, so the
    development is parametric in the type of numbers: all it needs is how
    [JSON.stringify] prints one and how [JSON.parse] scans one.  What is
    assumed of the two is stated apart, in two strengths:
    [JSNumberPrints] is what ECMAScript guarantees of every double,
    [JSNumberLaws] what it guarantees of the doubles that print back (the
    finite ones other than [-0]). *)

Definition number_char (c : ascii) : bool :=
  match c with
  | "0" | "1" | "2" | "3" | "4" | "5" | "6" | "7" | "8" | "9"
  | "-" | "+" | "." | "e" | "E" => true
  | _ => false
  end.

Definition number_start (c : ascii) : bool :=
  match c with
  | "0" | "1" | "2" | "3" | "4" | "5" | "6" | "7" | "8" | "9" | "-" => true
  | _ => false
  end.

(** What follows a number literal: the end of the text or a character that
    cannot continue the literal. *)
Definition delimited (rest : list ascii) : Prop :=
  match rest with
  | [] => True
  | c :: _ => number_char c = false
  end.

Class JSNumber := {
  number : Type;
  (** what [JSON.stringify] prints for a number: [Number::toString] of a
      finite number, [null] for [NaN] and the infinities *)
  Number_toString : number → list ascii;
  (** the number production of the JSON grammar, read from the front *)
  Number_scan : list ascii → option (number * list ascii)
}.

(** Numbers that print back: a printed number starts like a JSON number,
    and scanning it gives the number back. *)
Class JSNumberLaws `{JSNumber} : Prop := {
  Number_toString_start : ∀ n, ∃ c r,
    Number_toString n = c :: r ∧ number_start c = true;
  Number_scan_toString : ∀ n rest, delimited rest →
    Number_scan (Number_toString n ++ rest) = Some (n, rest)
}.

Definition null_text : list ascii := ["n"; "u"; "l"; "l"].

(** What ECMAScript guarantees of every number: it is printed as [null]
    (when it is not finite) or as a literal of the JSON grammar, and the
    literal is scanned as a number (the same one, except that [-0] is
    printed [0]). *)
Class JSNumberPrints `{JSNumber} : Prop := {
  Number_prints : ∀ n,
    Number_toString n = null_text ∨
    ∃ c r m, Number_toString n = c :: r ∧ number_start c = true ∧
      ∀ rest, delimited rest →
        Number_scan (Number_toString n ++ rest) = Some (m, rest)
}.

Section JSON.
Context `{JSNumber}.

#[local] Unset Elimination Schemes.
Inductive json : Type :=
  | JNull
  | JBool (b : bool)
  | JNum (n : number)
  | JStr (s : string)
  | JArr (elements : list json)
  | JObj (members : list (string * json)).
#[local] Set Elimination Schemes.

(** [undefined] is a JS value but not a JSON one: a value that may be
    [undefined] is an [option]. *)
Definition jsval : Type := option json.

(** [o[k]] on an object whose keys are its own properties. *)
Fixpoint obj_get (k : string) (o : list (string * json)) : jsval :=
  match o with
  | [] => None
  | (k', v) :: o' => if decide (k = k') then Some v else obj_get k o'
  end.

(** [o[k] = v]: an existing property keeps its place, a new one goes last
    (that an engine lists array-index keys first is not modelled: it
    changes neither a lookup nor structural equality). *)
Fixpoint obj_set (k : string) (v : json) (o : list (string * json))
  : list (string * json) :=
  match o with
  | [] => [(k, v)]
  | (k', v') :: o' =>
      if decide (k = k') then (k, v) :: o' else (k', v') :: obj_set k v o'
  end.

Definition keys (o : list (string * json)) : list string := o.*1.

(** The values [JSON.parse] can build: no object has a property twice. *)
Fixpoint wf_json (v : json) : Prop :=
  match v with
  | JArr l => (fix all (l : list json) : Prop :=
                 match l with [] => True | x :: l' => wf_json x ∧ all l' end) l
  | JObj m => NoDup (keys m) ∧
              (fix all (m : list (string * json)) : Prop :=
                 match m with [] => True | kv :: m' => wf_json kv.2 ∧ all m' end) m
  | _ => True
  end.

(** ** [JSON.stringify] (ECMAScript, SerializeJSONProperty) *)

Definition hex_digit (n : N) : ascii :=
  match n with
  | 0 => "0" | 1 => "1" | 2 => "2" | 3 => "3" | 4 => "4" | 5 => "5"
  | 6 => "6" | 7 => "7" | 8 => "8" | 9 => "9" | 10 => "a" | 11 => "b"
  | 12 => "c" | 13 => "d" | 14 => "e" | _ => "f"
  end%N.

Definition quote_char (c : ascii) : list ascii :=
  let n := N_of_ascii c in
  if (n =? 8)%N then ["\"; "b"]
  else if (n =? 9)%N then ["\"; "t"]
  else if (n =? 10)%N then ["\"; "n"]
  else if (n =? 12)%N then ["\"; "f"]
  else if (n =? 13)%N then ["\"; "r"]
  else if (n =? 34)%N then ["\"; dquote]
  else if (n =? 92)%N then ["\"; "\"]
  else if (n <? 32)%N then
    ["\"; "u"; "0"; "0"; hex_digit (n / 16); hex_digit (n mod 16)]
  else [c].

(** Strings are sequences of bytes, the generalised UTF-8 form of a JS
    string: a code point is held as its UTF-8 encoding, and an unpaired
    surrogate as the three bytes that the same scheme gives its code
    unit. *)

(** The code unit the bytes [b1 b2 b3] encode, when it is a surrogate. *)
Definition surrogate_unit (b1 b2 b3 : ascii) : option N :=
  let n2 := N_of_ascii b2 in
  let n3 := N_of_ascii b3 in
  if ((N_of_ascii b1 =? 237) && (160 <=? n2) && (n2 <? 192) &&
      (128 <=? n3) && (n3 <? 192))%N
  then Some (55296 + (n2 - 160) * 64 + (n3 - 128))%N
  else None.

Definition high_surrogate (u : N) : bool := ((55296 <=? u) && (u <? 56320))%N.
Definition low_surrogate (u : N) : bool := ((56320 <=? u) && (u <? 57344))%N.

(** [s] begins with a low surrogate. *)
Definition low_follows (s : list ascii) : bool :=
  match s with
  | b1 :: b2 :: b3 :: _ =>
      match surrogate_unit b1 b2 b3 with
      | Some w => low_surrogate w
      | None => false
      end
  | _ => false
  end.

(** [UnicodeEscape]: [\uXXXX] with lower-case digits. *)
Definition UnicodeEscape (u : N) : list ascii :=
  ["\"; "u"; hex_digit (u / 4096); hex_digit ((u / 256) mod 16);
   hex_digit ((u / 16) mod 16); hex_digit (u mod 16)]%N.

(** The characters of a quoted string: an unpaired surrogate is escaped,
    every other character is quoted by [quote_char].  (A high surrogate
    followed by a low one is a pair, held as the four bytes of its code
    point; three bytes each is the form of no JS string, and such bytes
    are left as they are.) *)
Fixpoint quote_chars (s : list ascii) : list ascii :=
  match s with
  | [] => []
  | c :: r =>
      match r with
      | b2 :: b3 :: r' =>
          match surrogate_unit c b2 b3 with
          | Some u =>
              if high_surrogate u && low_follows r'
              then quote_char c ++ quote_chars r
              else UnicodeEscape u ++ quote_chars r'
          | None => quote_char c ++ quote_chars r
          end
      | _ => quote_char c ++ quote_chars r
      end
  end.

Definition QuoteJSONString (s : string) : list ascii :=
  dquote :: quote_chars (list_ascii_of_string s) ++ [dquote].

Fixpoint join {A} (sep : list A) (parts : list (list A)) : list A :=
  match parts with
  | [] => []
  | [p] => p
  | p :: ps => p ++ sep ++ join sep ps
  end.

Definition newline : ascii := ascii_of_nat 10.

(** The brackets around the serialised parts of an array or an object. *)
Definition wrap (gap stepback : list ascii) (open close : ascii)
    (partial : list (list ascii)) : list ascii :=
  match partial with
  | [] => [open; close]
  | _ =>
      match gap with
      | [] => open :: join [","] partial ++ [close]
      | _ =>
          let indent := stepback ++ gap in
          open :: newline :: indent ++
            join ("," :: newline :: indent) partial ++
            newline :: stepback ++ [close]
      end
  end.

Definition colon (gap : list ascii) : list ascii :=
  match gap with [] => [":"] | _ => [":"; " "] end.

Fixpoint SerializeJSONProperty (gap indent : list ascii) (v : json)
  : list ascii :=
  match v with
  | JNull => list_ascii_of_string "null"
  | JBool true => list_ascii_of_string "true"
  | JBool false => list_ascii_of_string "false"
  | JNum n => Number_toString n
  | JStr s => QuoteJSONString s
  | JArr l =>
      wrap gap indent "[" "]"
        (map (SerializeJSONProperty gap (indent ++ gap)) l)
  | JObj m =>
      wrap gap indent "{" "}"
        (map (λ kv, QuoteJSONString kv.1 ++ colon gap ++
                    SerializeJSONProperty gap (indent ++ gap) kv.2) m)
  end.

(** [JSON.stringify(v, null, space)] for a numeric [space]: the gap is
    [min(10, space)] blanks. *)
Definition JSON_stringify (v : json) (space : nat) : string :=
  string_of_list_ascii
    (SerializeJSONProperty (replicate (space `min` 10) " ") [] v).

(** ** [JSON.parse] *)

Inductive token : Type :=
  | TLBrace | TRBrace | TLBracket | TRBracket | TColon | TComma
  | TNull | TTrue | TFalse
  | TStr (s : string)
  | TNum (n : number).

Definition is_ws (c : ascii) : bool :=
  let n := N_of_ascii c in
  ((n =? 32) || (n =? 9) || (n =? 10) || (n =? 13))%N.

Definition hex_value (c : ascii) : option N :=
  let n := N_of_ascii c in
  if ((48 <=? n) && (n <=? 57))%N then Some (n - 48)%N
  else if ((97 <=? n) && (n <=? 102))%N then Some (n - 87)%N
  else if ((65 <=? n) && (n <=? 70))%N then Some (n - 55)%N
  else None.

Definition code_unit (h1 h2 h3 h4 : ascii) : option N :=
  a ← hex_value h1; b ← hex_value h2; c ← hex_value h3; d ← hex_value h4;
  Some (((a * 16 + b) * 16 + c) * 16 + d)%N.

(** The bytes of a code point (or of a surrogate code unit). *)
Definition utf8 (cp : N) : list ascii :=
  (if cp <? 128 then [ascii_of_N cp]
   else if cp <? 2048 then
     [ascii_of_N (192 + cp / 64); ascii_of_N (128 + cp mod 64)]
   else if cp <? 65536 then
     [ascii_of_N (224 + cp / 4096); ascii_of_N (128 + (cp / 64) mod 64);
      ascii_of_N (128 + cp mod 64)]
   else
     [ascii_of_N (240 + cp / 262144); ascii_of_N (128 + (cp / 4096) mod 64);
      ascii_of_N (128 + (cp / 64) mod 64); ascii_of_N (128 + cp mod 64)])%N.

Definition prepend (cs : list ascii) (r : option (list ascii * list ascii))
  : option (list ascii * list ascii) :=
  match r with Some (str, rest) => Some (cs ++ str, rest) | None => None end.

(** The characters of a string literal after its opening quote, up to and
    including the closing quote.  The escape of a high surrogate followed
    by the escape of a low one is a pair, one code point; any other
    surrogate escape is an unpaired surrogate. *)
Fixpoint scan_string (s : list ascii) : option (list ascii * list ascii) :=
  match s with
  | [] => None
  | dquote :: r => Some ([], r)
  | "\" :: [] => None
  | "\" :: e :: r =>
      match e with
      | dquote | "\" | "/" => prepend [e] (scan_string r)
      | "b" => prepend [ascii_of_nat 8] (scan_string r)
      | "f" => prepend [ascii_of_nat 12] (scan_string r)
      | "n" => prepend [ascii_of_nat 10] (scan_string r)
      | "r" => prepend [ascii_of_nat 13] (scan_string r)
      | "t" => prepend [ascii_of_nat 9] (scan_string r)
      | "u" =>
          match r with
          | h1 :: h2 :: h3 :: h4 :: r1 =>
              match code_unit h1 h2 h3 h4 with
              | Some u =>
                  if high_surrogate u then
                    match r1 with
                    | "\" :: "u" :: l1 :: l2 :: l3 :: l4 :: r2 =>
                        match code_unit l1 l2 l3 l4 with
                        | Some w =>
                            if low_surrogate w then
                              prepend
                                (utf8 (65536 + (u - 55296) * 1024 + (w - 56320))%N)
                                (scan_string r2)
                            else prepend (utf8 u) (scan_string r1)
                        | None => prepend (utf8 u) (scan_string r1)
                        end
                    | _ => prepend (utf8 u) (scan_string r1)
                    end
                  else prepend (utf8 u) (scan_string r1)
              | None => None
              end
          | _ => None
          end
      | _ => None
      end
  | c :: r =>
      if (N_of_ascii c <? 32)%N then None else prepend [c] (scan_string r)
  end.

Definition push (t : token) (r : option (list token)) : option (list token) :=
  (t ::.) <$> r.

Fixpoint lex (fuel : nat) (s : list ascii) : option (list token) :=
  match fuel with
  | O => None
  | S f =>
      match s with
      | [] => Some []
      | c :: r =>
          if is_ws c then lex f r
          else match c with
          | "{" => push TLBrace (lex f r)
          | "}" => push TRBrace (lex f r)
          | "[" => push TLBracket (lex f r)
          | "]" => push TRBracket (lex f r)
          | ":" => push TColon (lex f r)
          | "," => push TComma (lex f r)
          | dquote =>
              match scan_string r with
              | Some (str, r') => push (TStr (string_of_list_ascii str)) (lex f r')
              | None => None
              end
          | "n" =>
              match r with
              | "u" :: "l" :: "l" :: r' => push TNull (lex f r')
              | _ => None
              end
          | "t" =>
              match r with
              | "r" :: "u" :: "e" :: r' => push TTrue (lex f r')
              | _ => None
              end
          | "f" =>
              match r with
              | "a" :: "l" :: "s" :: "e" :: r' => push TFalse (lex f r')
              | _ => None
              end
          | _ =>
              if number_start c then
                match Number_scan s with
                | Some (n, r') => push (TNum n) (lex f r')
                | None => None
                end
              else None
          end
      end
  end.

Fixpoint parse_elements (pv : list token → option (json * list token))
    (fuel : nat) (ts : list token) (acc : list json)
  : option (json * list token) :=
  match fuel with
  | O => None
  | S f =>
      match pv ts with
      | Some (v, TComma :: r) => parse_elements pv f r (acc ++ [v])
      | Some (v, TRBracket :: r) => Some (JArr (acc ++ [v]), r)
      | _ => None
      end
  end.

(** A repeated name overwrites the earlier value ([obj_set]). *)
Fixpoint parse_members (pv : list token → option (json * list token))
    (fuel : nat) (ts : list token) (acc : list (string * json))
  : option (json * list token) :=
  match fuel with
  | O => None
  | S f =>
      match ts with
      | TStr k :: TColon :: r =>
          match pv r with
          | Some (v, TComma :: r') => parse_members pv f r' (obj_set k v acc)
          | Some (v, TRBrace :: r') => Some (JObj (obj_set k v acc), r')
          | _ => None
          end
      | _ => None
      end
  end.

Fixpoint parse_value (fuel : nat) (ts : list token)
  : option (json * list token) :=
  match fuel with
  | O => None
  | S f =>
      match ts with
      | TNull :: r => Some (JNull, r)
      | TTrue :: r => Some (JBool true, r)
      | TFalse :: r => Some (JBool false, r)
      | TNum n :: r => Some (JNum n, r)
      | TStr s :: r => Some (JStr s, r)
      | TLBracket :: TRBracket :: r => Some (JArr [], r)
      | TLBracket :: r => parse_elements (parse_value f) f r []
      | TLBrace :: TRBrace :: r => Some (JObj [], r)
      | TLBrace :: r => parse_members (parse_value f) f r []
      | _ => None
      end
  end.

(** [JSON.parse(text)]: [None] stands for the [SyntaxError]. *)
Definition JSON_parse (text : string) : option json :=
  let s := list_ascii_of_string text in
  match lex (S (length s)) s with
  | Some ts =>
      match parse_value (S (length ts)) ts with
      | Some (v, []) => Some v
      | _ => None
      end
  | None => None
  end.

End JSON.

Arguments json {_}.
Arguments jsval {_}.
Arguments token {_}.

(** ** Integer literals: an instance of [JSNumber]

    Numbers printed as decimal integers.  The scanner accepts the integer
    literals of the JSON grammar and rejects a literal that goes on with a
    fraction or an exponent. *)

Module IntegerNumbers.

Fixpoint uint_chars (d : Decimal.uint) : list ascii :=
  match d with
  | Decimal.Nil => []
  | Decimal.D0 d => "0" :: uint_chars d
  | Decimal.D1 d => "1" :: uint_chars d
  | Decimal.D2 d => "2" :: uint_chars d
  | Decimal.D3 d => "3" :: uint_chars d
  | Decimal.D4 d => "4" :: uint_chars d
  | Decimal.D5 d => "5" :: uint_chars d
  | Decimal.D6 d => "6" :: uint_chars d
  | Decimal.D7 d => "7" :: uint_chars d
  | Decimal.D8 d => "8" :: uint_chars d
  | Decimal.D9 d => "9" :: uint_chars d
  end.

Definition digit (c : ascii) : option (Decimal.uint → Decimal.uint) :=
  match c with
  | "0" => Some Decimal.D0 | "1" => Some Decimal.D1 | "2" => Some Decimal.D2
  | "3" => Some Decimal.D3 | "4" => Some Decimal.D4 | "5" => Some Decimal.D5
  | "6" => Some Decimal.D6 | "7" => Some Decimal.D7 | "8" => Some Decimal.D8
  | "9" => Some Decimal.D9
  | _ => None
  end.

Fixpoint scan_uint (s : list ascii) : Decimal.uint * list ascii :=
  match s with
  | [] => (Decimal.Nil, [])
  | c :: r =>
      match digit c with
      | Some D => let '(d, rest) := scan_uint r in (D d, rest)
      | None => (Decimal.Nil, s)
      end
  end.

Definition Z_toString (z : Z) : list ascii :=
  match Z.to_int z with
  | Decimal.Pos d => uint_chars d
  | Decimal.Neg d => "-" :: uint_chars d
  end.

Definition integer_end (rest : list ascii) : bool :=
  match rest with
  | "." :: _ | "e" :: _ | "E" :: _ => false
  | _ => true
  end.

Definition scan_digits (s : list ascii) : option (Z * list ascii) :=
  let '(d, rest) := scan_uint s in
  match d with
  | Decimal.Nil => None
  | Decimal.D0 (Decimal.Nil) => if integer_end rest then Some (0%Z, rest) else None
  | Decimal.D0 _ => None
  | _ => if integer_end rest then Some (Z.of_uint d, rest) else None
  end.

Definition Z_scan (s : list ascii) : option (Z * list ascii) :=
  match s with
  | "-" :: r =>
      match scan_digits r with
      | Some (z, rest) => Some ((- z)%Z, rest)
      | None => None
      end
  | _ => scan_digits s
  end.

#[global] Instance Z_number : JSNumber := {|
  number := Z;
  Number_toString := Z_toString;
  Number_scan := Z_scan
|}.

End IntegerNumbers.

(** ** Integers with a signed zero and overflow: another instance

    The two features of doubles that keep a number from printing back: a
    literal too large is read as an infinity, which is printed [null], and
    [-0] is printed [0].  The scanner accepts an integer literal with an
    optional non-negative exponent ([1e999]). *)

Module SaturatingNumbers.
Import IntegerNumbers.

Inductive saturating : Type :=
  | Finite (z : Z)
  | NegativeZero
  | PositiveInfinity
  | NegativeInfinity.

(** The magnitude from which a literal is read as an infinity. *)
Definition overflow : Z := 2 ^ 1024.

Definition of_magnitude (negative : bool) (m : Z) : saturating :=
  if (m =? 0)%Z then (if negative then NegativeZero else Finite 0)
  else if (m <? overflow)%Z then Finite (if negative then - m else m)
  else if negative then NegativeInfinity else PositiveInfinity.

Definition S_toString (n : saturating) : list ascii :=
  match n with
  | Finite z => Z_toString z
  | NegativeZero => ["0"]
  | PositiveInfinity | NegativeInfinity => null_text
  end.

(** The exponent that follows the digits, [0] when there is none.  A
    fraction and a negative exponent are rejected. *)
Definition scan_exponent (s : list ascii) : option (Z * list ascii) :=
  match s with
  | "e" :: r | "E" :: r =>
      let r' := match r with "+" :: r' => r' | _ => r end in
      let '(d, rest) := scan_uint r' in
      match d with
      | Decimal.Nil => None
      | _ => Some (Z.of_uint d, rest)
      end
  | "." :: _ => None
  | _ => Some (0%Z, s)
  end.

Definition scan_magnitude (s : list ascii) : option (Z * list ascii) :=
  let '(d, rest) := scan_uint s in
  match d with
  | Decimal.Nil => None
  | Decimal.D0 (Decimal.D0 _ | Decimal.D1 _ | Decimal.D2 _ | Decimal.D3 _
               | Decimal.D4 _ | Decimal.D5 _ | Decimal.D6 _ | Decimal.D7 _
               | Decimal.D8 _ | Decimal.D9 _) => None
  | _ =>
      match scan_exponent rest with
      | Some (e, rest') => Some ((Z.of_uint d * 10 ^ e)%Z, rest')
      | None => None
      end
  end.

Definition S_scan (s : list ascii) : option (saturating * list ascii) :=
  match s with
  | "-" :: r =>
      match scan_magnitude r with
      | Some (m, rest) => Some (of_magnitude true m, rest)
      | None => None
      end
  | _ =>
      match scan_magnitude s with
      | Some (m, rest) => Some (of_magnitude false m, rest)
      | None => None
      end
  end.

Definition S_number : JSNumber := {|
  number := saturating;
  Number_toString := S_toString;
  Number_scan := S_scan
|}.

End SaturatingNumbers.

(** ** The [zod] combinators the schema is built from

    A schema is its [_parse] method: from the path walked so far and the
    input (which may be [undefined]) to the parsed value or the issues. *)

Section Zod.
Context `{JSNumber}.
Local Open Scope string_scope.
Local Open Scope list_scope.

Inductive ZodParsedType : Type :=
  | ZUndefined | ZNull | ZBoolean | ZNumber | ZString | ZArray | ZObject.

Definition getParsedType (data : jsval) : ZodParsedType :=
  match data with
  | None => ZUndefined
  | Some JNull => ZNull
  | Some (JBool _) => ZBoolean
  | Some (JNum _) => ZNumber
  | Some (JStr _) => ZString
  | Some (JArr _) => ZArray
  | Some (JObj _) => ZObject
  end.

Inductive path_elem : Type :=
  | PKey (k : string)
  | PIndex (i : nat).

Inductive ZodExpected : Type :=
  | ExpectedType (t : ZodParsedType)
  | ExpectedOneOf (values : list string).

#[local] Unset Elimination Schemes.
Inductive ZodIssue : Type :=
  | invalid_type (expected : ZodExpected) (received : ZodParsedType)
      (path : list path_elem)
  | invalid_literal (expected : string) (received : jsval)
      (path : list path_elem)
  | invalid_enum_value (options : list string) (received : string)
      (path : list path_elem)
  | invalid_union (unionErrors : list (list ZodIssue))
      (path : list path_elem).
#[local] Set Elimination Schemes.

Inductive ParseReturn : Type :=
  | OK (value : jsval)
  | INVALID (issues : list ZodIssue).

Definition schema : Type := list path_elem → jsval → ParseReturn.

Definition issues_of (r : ParseReturn) : list ZodIssue :=
  match r with OK _ => [] | INVALID issues => issues end.

Definition is_valid (r : ParseReturn) : bool :=
  match r with OK _ => true | INVALID _ => false end.

(** [ParseStatus.mergeObjectSync]: the parsed members in the order of the
    pairs.  A member whose value is [undefined] and the key ["__proto__"]
    do not become properties that [JSON.stringify] would print. *)
Definition mergeObjectSync (pairs : list (string * ParseReturn)) : ParseReturn :=
  if forallb (λ p, is_valid p.2) pairs then
    OK (Some (JObj (omap (λ p,
      match p.2 with
      | OK (Some v) => if decide (p.1 = "__proto__") then None else Some (p.1, v)
      | _ => None
      end) pairs)))
  else INVALID (flat_map (λ p, issues_of p.2) pairs).

(** [ParseStatus.mergeArray]; an [undefined] slot is printed as [null]. *)
Definition mergeArray (results : list ParseReturn) : ParseReturn :=
  if forallb is_valid results then
    OK (Some (JArr (map (λ r,
      match r with OK (Some v) => v | _ => JNull end) results)))
  else INVALID (flat_map issues_of results).

Definition z_any : schema := λ _ input, OK input.

Definition z_literal (value : string) : schema := λ path input,
  match input with
  | Some (JStr s) =>
      if decide (s = value) then OK input
      else INVALID [invalid_literal value input path]
  | _ => INVALID [invalid_literal value input path]
  end.

Definition z_enum (values : list string) : schema := λ path input,
  match input with
  | Some (JStr s) =>
      if decide (s ∈ values) then OK input
      else INVALID [invalid_enum_value values s path]
  | _ => INVALID [invalid_type (ExpectedOneOf values) (getParsedType input) path]
  end.

Definition z_optional (inner : schema) : schema := λ path input,
  match input with
  | None => OK None
  | Some _ => inner path input
  end.

(** [z.record(valueType)]: every own property of the input. *)
Definition z_record (valueType : schema) : schema := λ path input,
  match input with
  | Some (JObj data) =>
      mergeObjectSync
        (map (λ kv, (kv.1, valueType (path ++ [PKey kv.1]) (Some kv.2))) data)
  | _ => INVALID [invalid_type (ExpectedType ZObject) (getParsedType input) path]
  end.

Definition z_array (element : schema) : schema := λ path input,
  match input with
  | Some (JArr data) =>
      mergeArray (imap (λ i v, element (path ++ [PIndex i]) (Some v)) data)
  | _ => INVALID [invalid_type (ExpectedType ZArray) (getParsedType input) path]
  end.

(** [z.object(shape)] with the default [unknownKeys: "strip"]: only the
    keys of the shape are looked at and only they are kept. *)
Definition z_object (shape : list (string * schema)) : schema := λ path input,
  match input with
  | Some (JObj data) =>
      mergeObjectSync
        (map (λ ks, (ks.1, ks.2 (path ++ [PKey ks.1]) (obj_get ks.1 data))) shape)
  | _ => INVALID [invalid_type (ExpectedType ZObject) (getParsedType input) path]
  end.

(** [z.union(options)]: the first option that accepts wins; when none
    does, one issue carries the issues of every option. *)
Fixpoint union_options (options : list schema) (errors : list (list ZodIssue))
    (path : list path_elem) (input : jsval) : ParseReturn :=
  match options with
  | [] => INVALID [invalid_union errors path]
  | option :: rest =>
      match option path input with
      | OK v => OK v
      | INVALID issues => union_options rest (errors ++ [issues]) path input
      end
  end.

Definition z_union (options : list schema) : schema :=
  union_options options [].

(** ** Validation (GeoJSON) *)

Definition geometry : schema :=
  z_object [
    ("type", z_enum [
      "Point";
      "LineString";
      "Polygon";
      "MultiPoint";
      "MultiLineString";
      "MultiPolygon";
      "GeometryCollection"
    ]);
    ("coordinates", z_any)
  ].

Definition feature : schema :=
  z_object [
    ("type", z_literal "Feature");
    ("geometry", geometry);
    ("properties", z_optional (z_record z_any))
  ].

Definition featureCollection : schema :=
  z_object [
    ("type", z_literal "FeatureCollection");
    ("features", z_array feature)
  ].

Definition geojsonSchema : schema := z_union [featureCollection; feature].

End Zod.

(** ** [path.join] (POSIX)

    An absolute path is the list of its components.  [path.join(base, rel)]
    normalises [base + "/" + rel]: empty and ["."] components disappear, a
    [".."] component removes the one before it (or nothing at the root). *)

Section Platform.
Local Open Scope string_scope.
Local Open Scope list_scope.

Definition path : Type := list string.

Fixpoint split_slash (s : string) : list string :=
  match s with
  | EmptyString => [EmptyString]
  | String c r =>
      if decide (c = "/"%char) then EmptyString :: split_slash r
      else match split_slash r with
           | x :: xs => String c x :: xs
           | [] => [String c EmptyString]
           end
  end.

Definition normalize_step (acc : path) (seg : string) : path :=
  if decide (seg = EmptyString) then acc
  else if decide (seg = ".") then acc
  else if decide (seg = "..") then removelast acc
  else acc ++ [seg].

Definition normalize (segs : list string) : path :=
  fold_left normalize_step segs [].

Definition path_join (base : path) (rel : string) : path :=
  normalize (base ++ split_slash rel).

(** [p] lies inside the directory [root]. *)
Definition inside (root p : path) : Prop :=
  ∃ rest, rest ≠ [] ∧ p = root ++ rest.

Fixpoint has_slash (s : string) : bool :=
  match s with
  | EmptyString => false
  | String c r => if decide (c = "/"%char) then true else has_slash r
  end.

(** ** The file system and the handlers' effects *)

Record fs_file : Type := { content : string; mtime : Z }.

Inductive fs_call : Type :=
  | Stat (p : path)
  | CreateReadStream (p : path)
  | WriteFile (p : path) (data : string).

(** The files on disk and the calls made to [fs] so far. *)
Record world : Type := { files : gmap path fs_file; calls : list fs_call }.

(** How a [writeFile] can end: it completes; it fails before the file is
    opened (permission denied, ...); or it fails after the file was opened
    for writing and [written] bytes got out (disk full, ...). *)
Inductive write_outcome : Type :=
  | WriteCompletes
  | WriteFailsBeforeOpen
  | WriteFailsAfter (written : nat).

#[global] Instance write_outcome_eq_dec : EqDecision write_outcome.
Proof. solve_decision. Defined.

Definition take_string (n : nat) (s : string) : string :=
  string_of_list_ascii (take n (list_ascii_of_string s)).

End Platform.

Section Server.
Context `{JSNumber}.
Local Open Scope string_scope.
Local Open Scope list_scope.

Inductive exn : Type :=
  | ZodError (issues : list ZodIssue)
  | TypeError
  | FsError.

(** A computation that reads and changes the world and returns or throws. *)
Definition M (A : Type) : Type := world → (A + exn) * world.

#[local] Instance M_ret : MRet M := λ A x w, (inl x, w).
#[local] Instance M_bind : MBind M := λ A B k m w,
  match m w with
  | (inl x, w') => k x w'
  | (inr e, w') => (inr e, w')
  end.

Definition throw {A} (e : exn) : M A := λ w, (inr e, w).

Definition try_catch {A} (body : M A) (handler : exn → M A) : M A := λ w,
  match body w with
  | (inl x, w') => (inl x, w')
  | (inr e, w') => handler e w'
  end.

Definition record_call (c : fs_call) (w : world) : world :=
  {| files := files w; calls := calls w ++ [c] |}.

Definition fs_stat (p : path) : M fs_file := λ w,
  let w' := record_call (Stat p) w in
  match files w !! p with
  | Some f => (inl f, w')
  | None => (inr FsError, w')
  end.

(** [fs.createReadStream(p).pipe(res)]: what reaches the response; [None]
    when there is no file to stream. *)
Definition fs_createReadStream (p : path) : M (option string) := λ w,
  (inl (content <$> files w !! p), record_call (CreateReadStream p) w).

Definition fs_writeFile (outcome : write_outcome) (now : Z)
    (p : path) (data : string) : M () := λ w,
  let w' := record_call (WriteFile p data) w in
  match outcome with
  | WriteCompletes =>
      (inl (),
       {| files := <[p := {| content := data; mtime := now |}]> (files w');
          calls := calls w' |})
  | WriteFailsBeforeOpen => (inr FsError, w')
  | WriteFailsAfter written =>
      (inr FsError,
       {| files := <[p := {| content := take_string written data;
                             mtime := now |}]> (files w');
          calls := calls w' |})
  end.

(** *** Requests and responses *)

Inductive header_value : Type :=
  | HText (s : string)
  | HDate (t : Z).   (* [t.toUTCString()] *)

Inductive res_body : Type :=
  | ErrorBody (error : string)
  | ErrorDetails (error : string) (details : list ZodIssue)
  | Created (id url : string) (bytes : nat)
  | Stream (data : option string).

Record response : Type := {
  status : nat;
  headers : list (string * header_value);
  body : res_body
}.

Definition res_json (code : nat) (b : res_body) : response :=
  {| status := code; headers := []; body := b |}.

(** [req.file] as multer leaves it; [buffer] stands for the text
    [req.file.buffer.toString("utf-8")], which for a file in UTF-8 is the
    bytes of the file. *)
Record uploaded_file : Type := {
  originalname : string;
  mimetype : string;
  buffer : string
}.

(** The request after the middleware ran: multer has stored the file part
    ([req.file]), or [express.json] has parsed an [application/json] body
    ([req.body]), or neither. *)
Inductive upload_request : Type :=
  | Multipart (file : uploaded_file)
  | JsonBody (body : json)
  | OtherRequest.

(** What the handler takes from its environment: the result of [uuidv4()],
    the clock, and how the write will end. *)
Record environment : Type := {
  uuid : string;
  now : Z;
  write_ends : write_outcome
}.

Variable __dirname : path.

Definition DATA_DIR : path := path_join __dirname "data".
Definition UPLOAD_DIR : path := path_join DATA_DIR "uploads".

Definition filePath_of (id : string) : path :=
  path_join UPLOAD_DIR (id +:+ ".geojson").

(** *** Persisted GET by id *)

Definition get_geojson (id : string) : M response :=
  let filePath := filePath_of id in
  try_catch
    (stat ← fs_stat filePath;
     data ← fs_createReadStream filePath;
     mret {| status := 200;
             headers := [("Content-Type", HText "application/geo+json");
                         ("Cache-Control", HText "public, max-age=300");
                         ("Last-Modified", HDate (mtime stat))];
             body := Stream data |})
    (λ _, mret (res_json 404 (ErrorBody "Not found"))).

(** *** Upload (JSON body OR multipart file) *)

(** [schema.parse(data)]: the value, or a thrown [ZodError]. *)
Definition schema_parse (s : schema) (data : json) : M jsval :=
  match s [] (Some data) with
  | OK v => mret v
  | INVALID issues => throw (ZodError issues)
  end.

Definition rawText_of (req : upload_request) : option string :=
  match req with
  | Multipart file => Some (buffer file)
  | JsonBody body => Some (JSON_stringify body 0)
  | OtherRequest => None
  end.

Definition post_geojson (env : environment) (req : upload_request) : M response :=
  try_catch
    (match rawText_of req with
     | None =>
         mret (res_json 400
           (ErrorBody "Send as multipart field `file` OR application/json"))
     | Some rawText =>
         match JSON_parse rawText with
         | None => mret (res_json 400 (ErrorBody "Invalid JSON"))
         | Some parsed =>
             validated ← schema_parse geojsonSchema parsed;
             (* [validated.type] throws on [undefined] *)
             v ← match validated with
                 | Some v => mret v
                 | None => throw TypeError
                 end;
             let id := uuid env in
             let filePath := filePath_of id in
             let pretty := JSON_stringify v 2 in
             _ ← fs_writeFile (write_ends env) (now env) filePath pretty;
             let bytes := String.length pretty in
             let url := "/api/geojson/" +:+ id in
             mret (res_json 201 (Created id url bytes))
         end
     end)
    (λ err,
       match err with
       | ZodError issues =>
           mret (res_json 400 (ErrorDetails "Invalid GeoJSON" issues))
       | _ => mret (res_json 500 (ErrorBody "Internal error"))
       end).

End Server.

(** ** Vocabulary of the statements *)

Section Vocabulary.
Context `{JSNumber}.
Local Open Scope string_scope.
Local Open Scope list_scope.

(** The tokens of the text [JSON.stringify] prints for a value. *)
Fixpoint tokens (v : json) : list token :=
  match v with
  | JNull => [TNull]
  | JBool true => [TTrue]
  | JBool false => [TFalse]
  | JNum n => [TNum n]
  | JStr s => [TStr s]
  | JArr l => TLBracket :: join [TComma] (map tokens l) ++ [TRBracket]
  | JObj m =>
      TLBrace ::
        join [TComma] (map (λ kv, TStr kv.1 :: TColon :: tokens kv.2) m) ++
        [TRBrace]
  end.

(** What [JSON.parse] reads where [JSON.stringify] has printed the number
    [n]: [null] for a number that is not finite, else the number that the
    literal denotes (a printed literal always scans, [JSNumberPrints], so
    the last case is not met). *)
Definition reread_number (n : number) : json :=
  if decide (Number_toString n = null_text) then JNull
  else match Number_scan (Number_toString n) with
       | Some (m, _) => JNum m
       | None => JNull
       end.

(** A value with each of its numbers read back from its printed form. *)
Fixpoint reread (v : json) : json :=
  match v with
  | JNum n => reread_number n
  | JArr l => JArr (map reread l)
  | JObj m => JObj (map (λ kv, (kv.1, reread kv.2)) m)
  | _ => v
  end.

(** A text that does not begin with the escape of a low surrogate. *)
Definition no_low_escape (t : list ascii) : Prop :=
  match t with
  | "\"%char :: "u"%char :: l1 :: l2 :: l3 :: l4 :: _ =>
      match code_unit l1 l2 l3 l4 with
      | Some w => low_surrogate w = false
      | None => True
      end
  | _ => True
  end.

Definition all_ws (w : list ascii) : Prop := Forall (λ c, is_ws c = true) w.

(** [text], whatever follows it, is read by the lexer as the tokens [ts]. *)
Definition lexes (text : list ascii) (ts : list token) : Prop :=
  ∀ f r, delimited r → length (text ++ r) < f →
    ∃ f', length r < f' ∧ lex f (text ++ r) = (ts ++.) <$> lex f' r.

(** A text that a number literal may be followed by. *)
Definition delim (t : list ascii) : Prop :=
  ∀ r, delimited r → delimited (t ++ r).

(** The token of a punctuation character. *)
Definition punct_token (c : ascii) : option token :=
  match c with
  | "{"%char => Some TLBrace | "}"%char => Some TRBrace
  | "["%char => Some TLBracket | "]"%char => Some TRBracket
  | ":"%char => Some TColon | ","%char => Some TComma
  | _ => None
  end.

(** A token a value can begin with. *)
Definition value_start (t : token) : Prop :=
  match t with
  | TRBrace | TRBracket | TColon | TComma => False
  | _ => True
  end.

(** The parser reads the tokens of [x], whatever follows them, as [x]. *)
Definition parses (x : json) : Prop :=
  ∀ f rest, length (tokens x ++ rest) < f →
    parse_value f (tokens x ++ rest) = Some (x, rest).

(** The members of a well-formed object. *)
Definition wf_members (m : list (string * json)) : Prop :=
  NoDup (keys m) ∧ Forall (λ kv, wf_json kv.2) m.

(** A parser that only returns well-formed values. *)
Definition yields_wf (pv : list token → option (json * list token)) : Prop :=
  ∀ ts v r, pv ts = Some (v, r) → wf_json v.

(** The JSON value a request carries, when its text parses. *)
Definition request_json (req : upload_request) : option json :=
  rawText_of req ≫= JSON_parse.

(** The seven geometry types of the schema. *)
Definition geometry_kinds : list string :=
  ["Point"; "LineString"; "Polygon"; "MultiPoint"; "MultiLineString";
   "MultiPolygon"; "GeometryCollection"].

(** The own properties a record keeps. *)
Definition kept (data : list (string * json)) : list (string * json) :=
  filter (λ kv, kv.1 ≠ "__proto__") data.

(** The property [k], when its value is not [undefined]. *)
Definition member (k : string) (v : jsval) : list (string * json) :=
  match v with Some x => [(k, x)] | None => [] end.

(** What [geometry] returns for an accepted object [g] of type [t]. *)
Definition parsed_geometry (t : string) (g : list (string * json)) : json :=
  JObj (("type", JStr t) :: member "coordinates" (obj_get "coordinates" g)).

(** What [z.record(z.any()).optional()] returns for accepted properties. *)
Definition parsed_properties (p : jsval) : jsval :=
  match p with
  | Some (JObj d) => Some (JObj (kept d))
  | _ => None
  end.

(** What [feature] returns for an accepted object [m] with geometry [g]. *)
Definition parsed_feature (t : string) (m g : list (string * json)) : json :=
  JObj (("type", JStr "Feature") :: ("geometry", parsed_geometry t g) ::
        member "properties" (parsed_properties (obj_get "properties" m))).

(** [x] is a Feature the schema accepts, and [y] is what it returns. *)
Definition is_feature (x y : json) : Prop :=
  ∃ m g t,
    x = JObj m ∧
    obj_get "type" m = Some (JStr "Feature") ∧
    obj_get "geometry" m = Some (JObj g) ∧
    obj_get "type" g = Some (JStr t) ∧ t ∈ geometry_kinds ∧
    (obj_get "properties" m = None ∨ ∃ d, obj_get "properties" m = Some (JObj d)) ∧
    y = parsed_feature t m g.

(** [x] is a FeatureCollection the schema accepts, [y] what it returns. *)
Definition is_featureCollection (x y : json) : Prop :=
  ∃ m fs vs,
    x = JObj m ∧
    obj_get "type" m = Some (JStr "FeatureCollection") ∧
    obj_get "features" m = Some (JArr fs) ∧
    Forall2 is_feature fs vs ∧
    y = JObj [("type", JStr "FeatureCollection"); ("features", JArr vs)].

(** Structural equality of JSON values: the members of an object count,
    not their order. *)
#[local] Unset Elimination Schemes.
Inductive struct_eq : json → json → Prop :=
  | struct_eq_null : struct_eq JNull JNull
  | struct_eq_bool b : struct_eq (JBool b) (JBool b)
  | struct_eq_num n : struct_eq (JNum n) (JNum n)
  | struct_eq_str s : struct_eq (JStr s) (JStr s)
  | struct_eq_arr l l' :
      Forall2 struct_eq l l' → struct_eq (JArr l) (JArr l')
  | struct_eq_obj m m' :
      (∀ k, option_Forall2 struct_eq (obj_get k m) (obj_get k m')) →
      struct_eq (JObj m) (JObj m').
#[local] Set Elimination Schemes.

(** A path with nothing left to normalise. *)
Definition normal_path (p : path) : Prop :=
  Forall (λ seg, seg ≠ EmptyString ∧ seg ≠ "." ∧ seg ≠ "..") p.

(** A parsed Feature has no member beyond the declared ones, and neither
    has its geometry. *)
Definition declared_feature (v : json) : Prop :=
  ∃ m, v = JObj m ∧ keys m ⊆ ["type"; "geometry"; "properties"] ∧
    ∀ g, obj_get "geometry" m = Some g →
      ∃ gm, g = JObj gm ∧ keys gm ⊆ ["type"; "coordinates"].

Definition declared_collection (v : json) : Prop :=
  ∃ m, v = JObj m ∧ keys m ⊆ ["type"; "features"] ∧
    ∀ fs, obj_get "features" m = Some fs →
      ∃ vs, fs = JArr vs ∧ Forall declared_feature vs.

(** A document with no member that validation would drop: only declared
    members, and no ["__proto__"] key among the properties. *)
Definition plain_feature (x : json) : Prop :=
  declared_feature x ∧
  ∀ m d, x = JObj m → obj_get "properties" m = Some (JObj d) →
    "__proto__" ∉ keys d.

Definition plain_document (x : json) : Prop :=
  plain_feature x ∨
  ∃ m, x = JObj m ∧ keys m ⊆ ["type"; "features"] ∧
    ∀ fs, obj_get "features" m = Some (JArr fs) → Forall plain_feature fs.

(** [needle] occurs in [hay]. *)
Fixpoint occurs (needle hay : string) : bool :=
  String.prefix needle hay ||
  match hay with
  | EmptyString => false
  | String _ rest => occurs needle rest
  end.

(** *** Example documents and an example deployment *)

(** A bare geometry, not wrapped in a Feature. *)
Definition bare_polygon : json :=
  JObj [("type", JStr "Polygon"); ("coordinates", JArr [])].

Definition triangle_feature : json :=
  JObj [("type", JStr "Feature");
        ("geometry", JObj [("type", JStr "Triangle"); ("coordinates", JArr [])])].

Definition empty_collection : json :=
  JObj [("type", JStr "FeatureCollection"); ("features", JArr [])].

(** A Feature with the GeoJSON members [id] and [bbox], which the schema
    does not declare. *)
Definition feature_with_id : json :=
  JObj [("type", JStr "Feature");
        ("id", JStr "station-7");
        ("bbox", JArr []);
        ("geometry", JObj [("type", JStr "Point"); ("coordinates", JArr [])]);
        ("properties", JObj [("name", JStr "Station")])].

(** What the schema returns for [feature_with_id]. *)
Definition stripped_feature_with_id : json :=
  JObj [("type", JStr "Feature");
        ("geometry", JObj [("type", JStr "Point"); ("coordinates", JArr [])]);
        ("properties", JObj [("name", JStr "Station")])].

(** A Feature whose geometry has no [coordinates] member. *)
Definition feature_without_coordinates : json :=
  JObj [("type", JStr "Feature");
        ("geometry", JObj [("type", JStr "Point")])].

Definition example_dirname : path := ["srv"; "app"].

Definition example_id : string := "1b4e28ba-2fa1-41d2-883f-0016d3cca427".

Definition example_env (outcome : write_outcome) : environment :=
  {| uuid := example_id; now := 1700000000000; write_ends := outcome |}.

Definition empty_world : world := {| files := ∅; calls := [] |}.

(** A disk with one file next to the server's source, outside the uploads. *)
Definition world_with_secret : world :=
  {| files := {[ ["srv"; "app"; "secret.geojson"] :=
                   {| content := "top secret"; mtime := 0 |} ]};
     calls := [] |}.

End Vocabulary.

(** ** The upload filter of multer *)

Section UploadFilter.
Local Open Scope string_scope.
Local Open Scope list_scope.

(** [String.prototype.toLowerCase] on the ASCII letters.  (The only other
    characters whose lower case is an ASCII letter give [k] and [i], which
    the suffixes tested below do not contain.) *)
Definition lower_char (c : ascii) : ascii :=
  let n := N_of_ascii c in
  if ((65 <=? n) && (n <=? 90))%N then ascii_of_N (n + 32) else c.

Fixpoint toLowerCase (s : string) : string :=
  match s with
  | EmptyString => EmptyString
  | String c r => String (lower_char c) (toLowerCase r)
  end.

(** [s.endsWith(suffix)] *)
Fixpoint endsWith (s suffix : string) : bool :=
  String.eqb s suffix ||
  match s with
  | EmptyString => false
  | String _ r => endsWith r suffix
  end.

(** [fileFilter(req, file, cb)]: the two arguments handed to [cb], the
    message of the error (or [null]) and the verdict. *)
Definition fileFilter (file : uploaded_file) : option string * bool :=
  let ok :=
    String.eqb (mimetype file) "application/geo+json" ||
    String.eqb (mimetype file) "application/json" ||
    endsWith (toLowerCase (originalname file)) ".geojson" ||
    endsWith (toLowerCase (originalname file)) ".json" in
  (if ok then None else Some "Unsupported file type", ok).

End UploadFilter.

(** ** The browser side: the uploader, the name of an entity *)

Section Client.
Context `{JSNumber}.
Import QArith_base.
Local Close Scope Q_scope.
Local Open Scope string_scope.
Local Open Scope list_scope.

(** The file picked in the input: [file.size] and what [file.text()]
    resolves to ([None] when the read is rejected). *)
Record picked_file : Type := {
  file_size : N;
  file_text : option string
}.

Inductive alert_message : Type :=
  (* [`File is ${sizeMB.toFixed(1)} MB. Max allowed is ${maxSizeMB} MB.`] *)
  | FileTooLarge (sizeMB maxSizeMB : Q)
  | AlertText (message : string).

(** What a change event leaves behind: the alerts shown, the calls of
    [onLoad], and [e.target.value]. *)
Record change_outcome : Type := {
  alerts : list alert_message;
  loaded : list json;
  input_value : string
}.

(** [json && typeof json === "object" &&
     (json.type === "FeatureCollection" || json.type === "Feature")] *)
Definition isFeatureOrFC (j : json) : bool :=
  match j with
  | JObj m =>
      match obj_get "type" m with
      | Some (JStr t) =>
          String.eqb t "FeatureCollection" || String.eqb t "Feature"
      | _ => false
      end
  | _ => false
  end.

Definition handleChange (maxSizeMB : Q) (file : option picked_file)
    (value : string) : change_outcome :=
  match file with
  | None => {| alerts := []; loaded := []; input_value := value |}
  | Some f =>
      let sizeMB := (inject_Z (Z.of_N (file_size f)) / inject_Z (1024 * 1024))%Q in
      if Qlt_le_dec maxSizeMB sizeMB then
        {| alerts := [FileTooLarge sizeMB maxSizeMB];
           loaded := [];
           input_value := EmptyString |}
      else
        match file_text f ≫= JSON_parse with
        | Some j =>
            if isFeatureOrFC j then
              {| alerts := []; loaded := [j]; input_value := EmptyString |}
            else
              {| alerts := [AlertText
                   "This file doesn't look like valid GeoJSON (Feature or FeatureCollection)."];
                 loaded := [];
                 input_value := EmptyString |}
        | None =>
            {| alerts := [AlertText
                 "Failed to read/parse the file. Please ensure it's valid JSON/GeoJSON."];
               loaded := [];
               input_value := EmptyString |}
        end
  end.

(** *** [resolveName] *)

(** Whether a number is truthy (neither zero nor [NaN]). *)
Variable number_truthy : number → bool.

Definition truthy (v : jsval) : bool :=
  match v with
  | None | Some JNull => false
  | Some (JBool b) => b
  | Some (JNum n) => number_truthy n
  | Some (JStr s) => negb (String.eqb s EmptyString)
  | Some (JArr _) | Some (JObj _) => true
  end.

(** [a || b] *)
Definition js_or (a b : jsval) : jsval := if truthy a then a else b.

(** [entity.name] is a string or [undefined]; [propsObj] is the plain
    object of the feature's properties. *)
Definition resolveName (entity_name : option string)
    (propsObj : list (string * json)) : jsval :=
  let p k := obj_get k propsObj in
  foldl js_or (JStr <$> entity_name)
    [p "name"; p "Name"; p "title"; p "Title"; p "barrage"; p "Barrage";
     p "barrage_name"; p "BarrageName"; p "project"; p "Project";
     p "dam"; p "Dam"; p "id"; Some (JStr "Unnamed Feature")].

(** The properties [resolveName] consults, in its order. *)
Definition name_keys : list string :=
  ["name"; "Name"; "title"; "Title"; "barrage"; "Barrage"; "barrage_name";
   "BarrageName"; "project"; "Project"; "dam"; "Dam"; "id"].

End Client.

(** ** More example inputs *)

Section MoreExamples.
Context `{JSNumber}.
Local Open Scope string_scope.
Local Open Scope list_scope.

(** A Feature whose [properties] member is [null]. *)
Definition feature_with_null_properties : list (string * json) :=
  [("type", JStr "Feature");
   ("geometry", JObj [("type", JStr "Point"); ("coordinates", JArr [])]);
   ("properties", JNull)].

Definition other_id : string := "9c5b94b1-35ad-49bb-b118-8e8fc24abf80".

Definition other_env : environment :=
  {| uuid := other_id; now := 1700000000500; write_ends := WriteCompletes |}.

(** An upload that is not JSON. *)
Definition broken_upload : upload_request :=
  Multipart {| originalname := "broken.json";
               mimetype := "application/json";
               buffer := "{" |}.

(** A file of 42 bytes holding the empty collection. *)
Definition picked_empty_collection : picked_file :=
  {| file_size := 42;
     file_text := Some (JSON_stringify empty_collection 0) |}.

(** A collection holding [feature_with_id], and what the schema returns
    for it. *)
Definition collection_with_id : json :=
  JObj [("type", JStr "FeatureCollection");
        ("name", JStr "stations");
        ("features", JArr [feature_with_id])].

Definition stripped_collection_with_id : json :=
  JObj [("type", JStr "FeatureCollection");
        ("features", JArr [stripped_feature_with_id])].

(** An identifier no upload has issued, which names the record of
    [example_id]. *)
Definition alias_id : string := "x/../" +:+ example_id.

End MoreExamples.

(** *** documents whose numbers do not print back *)

Section SaturatingExamples.
Import SaturatingNumbers.
Local Open Scope string_scope.
Local Open Scope list_scope.

(** [text] with each apostrophe standing for a double quote. *)
Fixpoint double_quoted (text : string) : string :=
  match text with
  | EmptyString => EmptyString
  | String c r =>
      String (if decide (c = "'"%char) then dquote else c) (double_quoted r)
  end.

(** A file whose coordinates overflow and hold a negative zero. *)
Definition overflow_upload : upload_request (H := S_number) :=
  Multipart
    {| originalname := "far.geojson";
       mimetype := "application/geo+json";
       buffer := double_quoted
         "{'type':'Feature','geometry':{'type':'Point','coordinates':[1e999,-0]}}" |}.

(** What [JSON.parse] reads from it. *)
Definition overflow_feature : json (H := S_number) :=
  JObj [("type", JStr "Feature");
        ("geometry",
         JObj [("type", JStr "Point");
               ("coordinates",
                JArr [JNum (PositiveInfinity : number (JSNumber := S_number));
                      JNum (NegativeZero : number (JSNumber := S_number))])])].

(** The same with its numbers read back from what [JSON.stringify]
    prints for them, [null] and [0]. *)
Definition overflow_feature_reread : json (H := S_number) :=
  JObj [("type", JStr "Feature");
        ("geometry",
         JObj [("type", JStr "Point");
               ("coordinates",
                JArr [JNull;
                      JNum (Finite 0 : number (JSNumber := S_number))])])].

End SaturatingExamples.

(** * Theorems *)

(** ** Integer literals satisfy the laws of numbers *)

Module IntegerLaws.
Import IntegerNumbers.
Local Open Scope char_scope.

Lemma digit_not_number_char c : number_char c = false → digit c = None.
Proof.
  destruct c as [[] [] [] [] [] [] [] []]; simpl; intros; try discriminate; reflexivity.
Qed.

Lemma scan_uint_chars d rest :
  delimited rest → scan_uint (uint_chars d ++ rest) = (d, rest).
Proof.
  intros Hr. induction d; simpl; try (rewrite IHd; reflexivity).
  destruct rest as [|c r]; [reflexivity|]. simpl in *.
  by rewrite (digit_not_number_char _ Hr).
Qed.

Lemma integer_end_delimited rest : delimited rest → integer_end rest = true.
Proof.
  destruct rest as [|c r]; [done|]. simpl.
  destruct c as [[] [] [] [] [] [] [] []]; simpl; intros; try discriminate; reflexivity.
Qed.

Lemma unorm_D0 d d' : Decimal.unorm d = Decimal.D0 d' → d' = Decimal.Nil.
Proof.
  induction d; simpl; intros Hd; try discriminate; try (injection Hd as <-); auto.
Qed.

Lemma to_uint_unorm p : Decimal.unorm (Pos.to_uint p) = Pos.to_uint p.
Proof.
  rewrite <- (DecimalPos.Unsigned.to_of (Pos.to_uint p)).
  by rewrite DecimalPos.Unsigned.of_to.
Qed.

Lemma scan_digits_pos p rest :
  delimited rest →
  scan_digits (uint_chars (Pos.to_uint p) ++ rest) = Some (Zpos p, rest).
Proof.
  intros Hr. unfold scan_digits. rewrite scan_uint_chars by done.
  rewrite (integer_end_delimited _ Hr).
  assert (Hz : Z.of_uint (Pos.to_uint p) = Zpos p).
  { unfold Z.of_uint. by rewrite DecimalPos.Unsigned.of_to. }
  pose proof (to_uint_unorm p) as Hn.
  pose proof (DecimalPos.Unsigned.to_uint_nonnil p) as Hnil.
  pose proof (DecimalPos.Unsigned.to_uint_nonzero p) as Hzero.
  destruct (Pos.to_uint p) as [|d| | | | | | | | |] eqn:E; try congruence.
  apply unorm_D0 in Hn. subst d. by destruct Hzero.
Qed.

Lemma Z_scan_toString z rest :
  delimited rest → Z_scan (Z_toString z ++ rest) = Some (z, rest).
Proof.
  intros Hr. destruct z as [|p|p]; unfold Z_toString; simpl Z.to_int.
  - change (Z_scan (uint_chars (Decimal.D0 Decimal.Nil) ++ rest) = Some (0%Z, rest)).
    change (scan_digits (uint_chars (Decimal.D0 Decimal.Nil) ++ rest) = Some (0%Z, rest)).
    unfold scan_digits. rewrite scan_uint_chars by done.
    by rewrite (integer_end_delimited _ Hr).
  - unfold Z_scan.
    pose proof (scan_digits_pos p rest Hr) as Hs.
    pose proof (DecimalPos.Unsigned.to_uint_nonnil p) as Hnil.
    destruct (Pos.to_uint p) eqn:E; try congruence; simpl in *; exact Hs.
  - simpl. by rewrite scan_digits_pos.
Qed.

Lemma Z_toString_start z : ∃ c r, Z_toString z = c :: r ∧ number_start c = true.
Proof.
  destruct z as [|p|p]; unfold Z_toString; simpl Z.to_int.
  - by eexists _, _.
  - pose proof (DecimalPos.Unsigned.to_uint_nonnil p) as Hnil.
    destruct (Pos.to_uint p); try congruence; by eexists _, _.
  - by eexists _, _.
Qed.

Lemma Z_number_laws : @JSNumberLaws Z_number.
Proof. split; [apply Z_toString_start | apply Z_scan_toString]. Qed.

End IntegerLaws.

(** ** What holds of the integers with a signed zero and overflow *)

Module SaturatingLaws.
Import IntegerNumbers IntegerLaws SaturatingNumbers.
Local Open Scope char_scope.

Lemma scan_exponent_delimited rest :
  delimited rest → scan_exponent rest = Some (0%Z, rest).
Proof.
  destruct rest as [|c r]; [done|]. simpl.
  destruct c as [[] [] [] [] [] [] [] []]; simpl; intros; try discriminate; reflexivity.
Qed.

Lemma scan_magnitude_zero rest :
  delimited rest → scan_magnitude ("0" :: rest) = Some (0%Z, rest).
Proof.
  intros Hr. unfold scan_magnitude.
  change ("0" :: rest) with (uint_chars (Decimal.D0 Decimal.Nil) ++ rest).
  rewrite scan_uint_chars by done.
  by rewrite (scan_exponent_delimited _ Hr).
Qed.

Lemma scan_magnitude_pos p rest :
  delimited rest →
  scan_magnitude (uint_chars (Pos.to_uint p) ++ rest) = Some (Zpos p, rest).
Proof.
  intros Hr. unfold scan_magnitude. rewrite scan_uint_chars by done.
  rewrite (scan_exponent_delimited _ Hr).
  assert (Hz : (Z.of_uint (Pos.to_uint p) * 10 ^ 0)%Z = Zpos p).
  { unfold Z.of_uint. rewrite DecimalPos.Unsigned.of_to. simpl. lia. }
  pose proof (to_uint_unorm p) as Hn.
  pose proof (DecimalPos.Unsigned.to_uint_nonnil p) as Hnil.
  destruct (Pos.to_uint p) as [|d| | | | | | | | |] eqn:E; try congruence.
  apply unorm_D0 in Hn. subst d. by rewrite Hz.
Qed.

Lemma S_scan_digits p rest :
  delimited rest →
  S_scan (uint_chars (Pos.to_uint p) ++ rest) =
    Some (of_magnitude false (Zpos p), rest).
Proof.
  intros Hr. pose proof (scan_magnitude_pos p rest Hr) as Hs.
  pose proof (DecimalPos.Unsigned.to_uint_nonnil p) as Hnil.
  unfold S_scan.
  destruct (Pos.to_uint p) eqn:E; try congruence; simpl in *; by rewrite Hs.
Qed.

Lemma S_number_prints : @JSNumberPrints S_number.
Proof.
  split. intros [z| | |]; [|right|by left|by left].
  - right. destruct (Z_toString_start z) as (c & r & E & Hc).
    exists c, r. simpl. unfold S_toString.
    destruct z as [|p|p].
    + exists (Finite 0). split; [done|]. split; [done|]. intros rest Hr.
      change (S_scan ("0" :: rest) = Some (Finite 0, rest)).
      unfold S_scan. by rewrite scan_magnitude_zero.
    + exists (of_magnitude false (Zpos p)). split; [done|]. split; [done|].
      intros rest Hr. unfold Z_toString. simpl Z.to_int.
      by apply S_scan_digits.
    + exists (of_magnitude true (Zpos p)). split; [done|]. split; [done|].
      intros rest Hr. unfold Z_toString. simpl Z.to_int.
      change (S_scan ("-" :: uint_chars (Pos.to_uint p) ++ rest) =
              Some (of_magnitude true (Zpos p), rest)).
      unfold S_scan. by rewrite scan_magnitude_pos.
  - exists "0", [], (Finite 0). split; [done|]. split; [done|].
    intros rest Hr. change (S_scan ("0" :: rest) = Some (Finite 0, rest)).
    unfold S_scan. by rewrite scan_magnitude_zero.
Qed.

(** The instance is outside [JSNumberLaws]: the negative zero is printed
    [0], which is read as the positive one. *)
Lemma S_number_not_exact : ¬ @JSNumberLaws S_number.
Proof.
  intros laws.
  pose proof (Number_scan_toString (H := S_number) NegativeZero [] I) as Hs.
  discriminate Hs.
Qed.

End SaturatingLaws.

(** ** [JSON.parse] reads back what [JSON.stringify] prints *)

Section Roundtrip.
Context `{JSNumber}.
Local Open Scope char_scope.

Lemma json_ind (P : json → Prop) :
  P JNull → (∀ b, P (JBool b)) → (∀ n, P (JNum n)) → (∀ s, P (JStr s)) →
  (∀ l, Forall P l → P (JArr l)) →
  (∀ m, Forall (λ kv, P kv.2) m → P (JObj m)) →
  ∀ v, P v.
Proof.
  intros Hnull Hbool Hnum Hstr Harr Hobj.
  fix IH 1. intros [| b | n | s | l | m].
  - exact Hnull.
  - apply Hbool.
  - apply Hnum.
  - apply Hstr.
  - apply Harr. induction l as [|x l IHl]; constructor; [apply IH | exact IHl].
  - apply Hobj. induction m as [|[k x] m IHm]; constructor; [apply IH | exact IHm].
Qed.

Lemma wf_json_arr l : wf_json (JArr l) ↔ Forall wf_json l.
Proof.
  simpl. induction l as [|x l IHl]; [by split; [constructor|] |].
  rewrite Forall_cons. by rewrite IHl.
Qed.

Lemma wf_json_obj m :
  wf_json (JObj m) ↔ NoDup (keys m) ∧ Forall (λ kv, wf_json kv.2) m.
Proof.
  simpl. apply and_iff_compat_l.
  induction m as [|x l IHl]; [by split; [constructor|] |].
  rewrite Forall_cons. by rewrite IHl.
Qed.

(** *** strings *)

Lemma scan_quote_char c tail :
  scan_string (quote_char c ++ tail) = prepend [c] (scan_string tail).
Proof.
  destruct c as [[] [] [] [] [] [] [] []]; reflexivity.
Qed.

Ltac narith := zify; Z.to_euclidean_division_equations; lia.

Lemma hex_value_digit d : (d < 16)%N → hex_value (hex_digit d) = Some d.
Proof.
  intros Hd.
  assert (Hc : (d = 0 ∨ d = 1 ∨ d = 2 ∨ d = 3 ∨ d = 4 ∨ d = 5 ∨ d = 6 ∨ d = 7 ∨
                d = 8 ∨ d = 9 ∨ d = 10 ∨ d = 11 ∨ d = 12 ∨ d = 13 ∨ d = 14 ∨
                d = 15)%N) by lia.
  repeat (destruct Hc as [->|Hc]; [reflexivity|]). by subst.
Qed.

Lemma code_unit_escape u :
  (u < 65536)%N →
  code_unit (hex_digit (u / 4096)) (hex_digit ((u / 256) mod 16))
    (hex_digit ((u / 16) mod 16)) (hex_digit (u mod 16)) = Some u.
Proof.
  intros Hu.
  replace (u / 4096)%N with (u / 16 / 16 / 16)%N
    by (by rewrite !N.Div0.div_div).
  replace (u / 256)%N with (u / 16 / 16)%N by (by rewrite !N.Div0.div_div).
  unfold code_unit.
  rewrite !hex_value_digit; simpl; [f_equal|..]; narith.
Qed.

(** The bytes of a surrogate are its generalised UTF-8 form. *)
Lemma surrogate_unit_utf8 b1 b2 b3 u :
  surrogate_unit b1 b2 b3 = Some u →
  (55296 ≤ u < 57344)%N ∧ utf8 u = [b1; b2; b3].
Proof.
  unfold surrogate_unit.
  destruct (_ && _) eqn:E; [|done]. intros [= <-].
  repeat (apply andb_prop in E as [E ?]).
  apply N.eqb_eq in E.
  repeat match goal with
         | Hx : (_ <=? _)%N = true |- _ => apply N.leb_le in Hx
         | Hx : (_ <? _)%N = true |- _ => apply N.ltb_lt in Hx
         end.
  set (n2 := N_of_ascii b2) in *. set (n3 := N_of_ascii b3) in *.
  set (u := (55296 + (n2 - 160) * 64 + (n3 - 128))%N).
  assert (Hu : (55296 ≤ u < 57344)%N) by (subst u; narith).
  split; [done|]. unfold utf8.
  rewrite (proj2 (N.ltb_ge u 128)) by lia.
  rewrite (proj2 (N.ltb_ge u 2048)) by lia.
  rewrite (proj2 (N.ltb_lt u 65536)) by lia.
  replace (224 + u / 4096)%N with (N_of_ascii b1) by (rewrite E; narith).
  replace (128 + (u / 64) mod 64)%N with n2 by (subst u; narith).
  replace (128 + u mod 64)%N with n3 by (subst u; narith).
  subst n2 n3. by rewrite !ascii_N_embedding.
Qed.

Lemma scan_escape h1 h2 h3 h4 u t :
  code_unit h1 h2 h3 h4 = Some u →
  (high_surrogate u = true → no_low_escape t) →
  scan_string ("\" :: "u" :: h1 :: h2 :: h3 :: h4 :: t) =
    prepend (utf8 u) (scan_string t).
Proof.
  intros Hu Ht.
  change (scan_string ("\" :: "u" :: h1 :: h2 :: h3 :: h4 :: t)) with
    (match code_unit h1 h2 h3 h4 with
     | Some u =>
         if high_surrogate u then
           match t with
           | "\" :: "u" :: l1 :: l2 :: l3 :: l4 :: r2 =>
               match code_unit l1 l2 l3 l4 with
               | Some w =>
                   if low_surrogate w then
                     prepend
                       (utf8 (65536 + (u - 55296) * 1024 + (w - 56320))%N)
                       (scan_string r2)
                   else prepend (utf8 u) (scan_string t)
               | None => prepend (utf8 u) (scan_string t)
               end
           | _ => prepend (utf8 u) (scan_string t)
           end
         else prepend (utf8 u) (scan_string t)
     | None => None
     end).
  rewrite Hu. destruct (high_surrogate u); [|done].
  specialize (Ht eq_refl).
  destruct t as [|t1 [|t2 [|l1 [|l2 [|l3 [|l4 r2]]]]]];
    try (destruct t1 as [[] [] [] [] [] [] [] []]; try reflexivity;
         destruct t2 as [[] [] [] [] [] [] [] []]; reflexivity);
    try (destruct t1 as [[] [] [] [] [] [] [] []]; reflexivity);
    try reflexivity.
  destruct t1 as [[] [] [] [] [] [] [] []]; try reflexivity.
  destruct t2 as [[] [] [] [] [] [] [] []]; try reflexivity.
  simpl in Ht. destruct (code_unit l1 l2 l3 l4) as [w|]; [|reflexivity].
  by rewrite Ht.
Qed.
Lemma quote_chars_eq c r :
  quote_chars (c :: r) =
    match r with
    | b2 :: b3 :: r' =>
        match surrogate_unit c b2 b3 with
        | Some u =>
            if high_surrogate u && low_follows r'
            then quote_char c ++ quote_chars r
            else UnicodeEscape u ++ quote_chars r'
        | None => quote_char c ++ quote_chars r
        end
    | _ => quote_char c ++ quote_chars r
    end.
Proof. by destruct r as [|? [|? ?]]. Qed.

Lemma no_low_escape_quote_char c t : no_low_escape (quote_char c ++ t).
Proof.
  destruct c as [[] [] [] [] [] [] [] []]; first [exact I | reflexivity].
Qed.

Lemma no_low_escape_quoted cs rest :
  low_follows cs = false → no_low_escape (quote_chars cs ++ dquote :: rest).
Proof.
  intros Hl. destruct cs as [|c r]; [exact I|].
  rewrite quote_chars_eq.
  destruct r as [|b2 [|b3 r']];
    try (rewrite <- app_assoc; apply no_low_escape_quote_char).
  destruct (surrogate_unit c b2 b3) as [u|] eqn:Eu;
    [|rewrite <- app_assoc; apply no_low_escape_quote_char].
  destruct (high_surrogate u && low_follows r');
    [rewrite <- app_assoc; apply no_low_escape_quote_char|].
  unfold low_follows in Hl. rewrite Eu in Hl.
  apply surrogate_unit_utf8 in Eu as [Hu _].
  unfold UnicodeEscape. simpl app.
  change (match code_unit (hex_digit (u / 4096)) (hex_digit ((u / 256) mod 16))
                  (hex_digit ((u / 16) mod 16)) (hex_digit (u mod 16)) with
          | Some w => low_surrogate w = false
          | None => True
          end).
  by rewrite code_unit_escape by lia.
Qed.

Lemma scan_quoted_bounded n : ∀ cs rest, length cs ≤ n →
  scan_string (quote_chars cs ++ dquote :: rest) = Some (cs, rest).
Proof.
  induction n as [|n IH]; intros cs rest Hn.
  { destruct cs; [reflexivity | simpl in Hn; lia]. }
  destruct cs as [|c r]; [reflexivity|]. simpl in Hn.
  assert (Hplain : scan_string ((quote_char c ++ quote_chars r) ++ dquote :: rest) =
                   Some (c :: r, rest)).
  { rewrite <- app_assoc, scan_quote_char, IH by lia. reflexivity. }
  rewrite quote_chars_eq.
  destruct r as [|b2 [|b3 r']]; try exact Hplain.
  destruct (surrogate_unit c b2 b3) as [u|] eqn:Eu; [|exact Hplain].
  destruct (high_surrogate u && low_follows r') eqn:Ep; [exact Hplain|].
  destruct (surrogate_unit_utf8 _ _ _ _ Eu) as [Hu Hb].
  unfold UnicodeEscape. simpl app.
  rewrite (scan_escape _ _ _ _ u) .
  - rewrite IH by (simpl in Hn; lia). simpl. by rewrite Hb.
  - apply code_unit_escape. lia.
  - intros Hh. rewrite Hh in Ep. simpl in Ep.
    by apply no_low_escape_quoted.
Qed.

Lemma scan_quoted cs rest :
  scan_string (quote_chars cs ++ dquote :: rest) = Some (cs, rest).
Proof. by apply (scan_quoted_bounded (length cs)). Qed.

(** *** the lexer *)

Lemma lex_punct c t f s :
  punct_token c = Some t → lex (S f) (c :: s) = push t (lex f s).
Proof.
  destruct c as [[] [] [] [] [] [] [] []]; simpl; intros Hc;
    try discriminate; injection Hc as <-; reflexivity.
Qed.

Lemma lex_ws c f s : is_ws c = true → lex (S f) (c :: s) = lex f s.
Proof. intros Hc. simpl. by rewrite Hc. Qed.

Lemma lex_number_start c f s :
  number_start c = true →
  lex (S f) (c :: s) =
    match Number_scan (c :: s) with
    | Some (n, r') => push (TNum n) (lex f r')
    | None => None
    end.
Proof.
  destruct c as [[] [] [] [] [] [] [] []]; simpl; intros Hc;
    try discriminate; reflexivity.
Qed.

Lemma push_fmap t ts (x : option (list token)) :
  push t ((ts ++.) <$> x) = ((t :: ts) ++.) <$> x.
Proof. by destruct x. Qed.

Lemma fmap_app_app ts1 ts2 (x : option (list token)) :
  (ts1 ++.) <$> ((ts2 ++.) <$> x) = ((ts1 ++ ts2) ++.) <$> x.
Proof. destruct x; simpl; [by rewrite app_assoc | done]. Qed.

Lemma lexes_nil : lexes [] [].
Proof.
  intros f r _ Hl. exists f. split; [done|]. simpl. by destruct (lex f r).
Qed.

Lemma lexes_punct c t text ts :
  punct_token c = Some t → lexes text ts → lexes (c :: text) (t :: ts).
Proof.
  intros Hc Ht f r Hr Hl. destruct f as [|f]; simpl in Hl; [lia|].
  destruct (Ht f r Hr) as (f' & Hf' & E); [lia|].
  exists f'. split; [done|].
  simpl app. rewrite (lex_punct _ _ _ _ Hc), E. apply push_fmap.
Qed.

Lemma lexes_ws c text ts :
  is_ws c = true → lexes text ts → lexes (c :: text) ts.
Proof.
  intros Hc Ht f r Hr Hl. destruct f as [|f]; simpl in Hl; [lia|].
  destruct (Ht f r Hr) as (f' & Hf' & E); [lia|].
  exists f'. split; [done|].
  simpl app. by rewrite (lex_ws _ _ _ Hc).
Qed.

Lemma lexes_all_ws w text ts :
  all_ws w → lexes text ts → lexes (w ++ text) ts.
Proof.
  intros Hw Ht. induction Hw as [|c w Hc Hw IH]; [done|].
  simpl. by apply lexes_ws.
Qed.

Lemma lexes_app t1 ts1 t2 ts2 :
  lexes t1 ts1 → lexes t2 ts2 → delim t2 → lexes (t1 ++ t2) (ts1 ++ ts2).
Proof.
  intros H1 H2 Hd f r Hr Hl. rewrite <- app_assoc in *.
  destruct (H1 f (t2 ++ r)) as (f1 & Hf1 & E1); [by apply Hd | done |].
  destruct (H2 f1 r Hr Hf1) as (f2 & Hf2 & E2).
  exists f2. split; [done|]. rewrite E1, E2. apply fmap_app_app.
Qed.

Lemma lexes_quote s text ts :
  lexes text ts → lexes (QuoteJSONString s ++ text) (TStr s :: ts).
Proof.
  intros Ht f r Hr Hl. destruct f as [|f]; [simpl in Hl; lia|].
  unfold QuoteJSONString in *. simpl app in *.
  rewrite <- !app_assoc in *. simpl app in *.
  rewrite length_cons, length_app in Hl. simpl in Hl.
  destruct (Ht f r Hr) as (f' & Hf' & E); [lia|].
  exists f'. split; [done|].
  change (lex (S f) (?q :: ?s)) with
    (match scan_string s with
     | Some (str, r') => push (TStr (string_of_list_ascii str)) (lex f r')
     | None => None
     end).
  rewrite scan_quoted, string_of_list_ascii_of_string, E. apply push_fmap.
Qed.

Lemma lexes_word w t :
  (∀ f r, lex (S f) (w ++ r) = push t (lex f r)) → w ≠ [] → lexes w [t].
Proof.
  intros Hw Hne f r Hr Hl. destruct f as [|f]; [simpl in Hl; lia|].
  exists f. split.
  - rewrite length_app in Hl. destruct w; [done|]. simpl in Hl. lia.
  - rewrite Hw. by destruct (lex f r).
Qed.

Context {prints : JSNumberPrints}.

Lemma reread_number_null n :
  Number_toString n = null_text → reread_number n = JNull.
Proof. intros E. unfold reread_number. by rewrite decide_True. Qed.

Lemma reread_number_literal n c r m :
  Number_toString n = c :: r → number_start c = true →
  Number_scan (Number_toString n) = Some (m, []) →
  reread_number n = JNum m.
Proof.
  intros E Hc Hs. unfold reread_number. rewrite decide_False, Hs; [done|].
  rewrite E. intros [= -> _]. discriminate Hc.
Qed.

Lemma lexes_number n : lexes (Number_toString n) (tokens (reread_number n)).
Proof.
  destruct (Number_prints n) as [E | (c & r0 & m & E & Hc & Hs)].
  - rewrite (reread_number_null _ E), E. by apply lexes_word.
  - rewrite (reread_number_literal n c r0 m E Hc).
    2:{ specialize (Hs [] I). by rewrite app_nil_r in Hs. }
    intros f r Hr Hl. destruct f as [|f]; [simpl in Hl; lia|].
    specialize (Hs r Hr). rewrite E in *. simpl app in *.
    rewrite (lex_number_start _ _ _ Hc), Hs.
    exists f. split; [simpl in Hl; rewrite length_app in Hl; lia|].
    by destruct (lex f r).
Qed.

Lemma delim_cons c t : number_char c = false → delim (c :: t).
Proof. intros Hc r _. exact Hc. Qed.

Lemma ws_not_number_char c : is_ws c = true → number_char c = false.
Proof. destruct c as [[] [] [] [] [] [] [] []]; simpl; intros; done. Qed.

Lemma delim_ws w t : all_ws w → delim t → delim (w ++ t).
Proof.
  intros Hw Ht. destruct Hw as [|c w Hc Hw]; [done|].
  apply delim_cons. by apply ws_not_number_char.
Qed.

Lemma delim_nil : delim [].
Proof. by intros r Hr. Qed.

Lemma lexes_join w1 parts tss tail tstail :
  Forall2 lexes parts tss → parts ≠ [] → all_ws w1 →
  lexes tail tstail → delim tail →
  lexes (join ("," :: w1) parts ++ tail) (join [TComma] tss ++ tstail).
Proof.
  intros Hp Hne Hw Ht Hd. induction Hp as [|p ts ps tss Hpt Hps IH]; [done|].
  destruct Hps as [|p' ts' ps' tss' Hpt' Hps'].
  - simpl. by apply lexes_app.
  - change (join ("," :: w1) (p :: p' :: ps')) with
      (p ++ ("," :: w1) ++ join ("," :: w1) (p' :: ps')).
    change (join [TComma] (ts :: ts' :: tss')) with
      (ts ++ [TComma] ++ join [TComma] (ts' :: tss')).
    rewrite <- !app_assoc. apply lexes_app; [done | | by apply delim_cons].
    simpl app. apply lexes_punct; [done|].
    apply lexes_all_ws; [done|]. by apply IH.
Qed.

Lemma wrap_form gap stepback open close parts :
  parts ≠ [] → all_ws gap → all_ws stepback →
  ∃ w1 w2, all_ws w1 ∧ all_ws w2 ∧
    wrap gap stepback open close parts =
      open :: w1 ++ join ("," :: w1) parts ++ w2 ++ [close].
Proof.
  intros Hne Hg Hs. destruct parts as [|p ps]; [done|].
  destruct gap as [|g gap'].
  - exists [], []. by repeat split; try constructor.
  - exists (newline :: stepback ++ g :: gap'), (newline :: stepback).
    split; [|split].
    + constructor; [done|]. by apply Forall_app.
    + by constructor.
    + reflexivity.
Qed.

Lemma lexes_wrap gap stepback open close topen tclose parts tss :
  punct_token open = Some topen → punct_token close = Some tclose →
  all_ws gap → all_ws stepback →
  Forall2 lexes parts tss → parts ≠ [] →
  lexes (wrap gap stepback open close parts)
        (topen :: join [TComma] tss ++ [tclose]).
Proof.
  intros Ho Hc Hg Hs Hp Hne.
  destruct (wrap_form gap stepback open close parts Hne Hg Hs)
    as (w1 & w2 & Hw1 & Hw2 & ->).
  apply lexes_punct; [done|]. apply lexes_all_ws; [done|].
  apply lexes_join; try done.
  - apply lexes_all_ws; [done|]. apply lexes_punct; [done|]. apply lexes_nil.
  - apply delim_ws; [done|]. apply delim_cons.
    destruct close as [[] [] [] [] [] [] [] []]; simpl in *; done.
Qed.

Lemma lexes_empty open close topen tclose :
  punct_token open = Some topen → punct_token close = Some tclose →
  lexes [open; close] [topen; tclose].
Proof.
  intros Ho Hc. apply lexes_punct; [done|]. apply lexes_punct; [done|].
  apply lexes_nil.
Qed.

Lemma all_ws_colon gap text ts :
  all_ws gap → lexes text ts → lexes (colon gap ++ text) (TColon :: ts).
Proof.
  intros Hg Ht. destruct gap; simpl.
  - by apply lexes_punct.
  - apply lexes_punct; [done|]. by apply lexes_ws.
Qed.

Lemma lexes_value v gap indent :
  all_ws gap → all_ws indent →
  lexes (SerializeJSONProperty gap indent v) (tokens (reread v)).
Proof.
  intros Hg. revert indent.
  induction v as [| [] | n | s | l IH | m IH] using json_ind; intros indent Hi.
  - by apply lexes_word.
  - by apply lexes_word.
  - by apply lexes_word.
  - apply lexes_number.
  - simpl. rewrite <- (app_nil_r (QuoteJSONString s)).
    apply lexes_quote, lexes_nil.
  - cbn [SerializeJSONProperty reread tokens].
    destruct l as [|x l]; [by apply lexes_empty|].
    rewrite map_map.
    apply lexes_wrap; try done.
    apply Forall2_fmap, Forall_Forall2_diag.
    eapply Forall_impl; [exact IH|]. intros y Hy. apply Hy.
    by apply Forall_app.
  - cbn [SerializeJSONProperty reread tokens].
    destruct m as [|x m]; [by apply lexes_empty|].
    rewrite map_map.
    apply lexes_wrap; try done.
    apply Forall2_fmap, Forall_Forall2_diag.
    eapply Forall_impl; [exact IH|]. intros [k y] Hy. simpl in *.
    apply lexes_quote, all_ws_colon; [done|]. apply Hy.
    by apply Forall_app.
Qed.

Lemma lex_stringify v gap :
  all_ws gap →
  let s := SerializeJSONProperty gap [] v in
  lex (S (length s)) s = Some (tokens (reread v)).
Proof.
  intros Hg s.
  destruct (lexes_value v gap [] Hg (Forall_nil_2 _) (S (length s)) [])
    as (f' & Hf' & E); [done | rewrite app_nil_r; fold s; lia |].
  rewrite app_nil_r in E. fold s in E. rewrite E.
  destruct f'; [simpl in Hf'; lia|]. simpl. by rewrite app_nil_r.
Qed.

(** *** the parser *)

Lemma tokens_head v : ∃ t ts, tokens v = t :: ts ∧ value_start t.
Proof. destruct v as [| [] | | | |]; by eexists _, _. Qed.

Lemma parse_value_array f t r :
  value_start t →
  parse_value (S f) (TLBracket :: t :: r) =
    parse_elements (parse_value f) f (t :: r) [].
Proof. by destruct t. Qed.

Lemma obj_set_fresh k v (acc : list (string * json)) :
  k ∉ keys acc → obj_set k v acc = acc ++ [(k, v)].
Proof.
  unfold keys. induction acc as [|[k' v'] acc IH]; [done|].
  rewrite fmap_cons, not_elem_of_cons. simpl. intros [Hne Hk].
  rewrite decide_False by done. by rewrite IH.
Qed.

Lemma parse_elements_tokens l : l ≠ [] → Forall parses l →
  ∀ acc f f2 rest,
    let ts := join [TComma] (map tokens l) ++ TRBracket :: rest in
    length ts < f → length ts ≤ f2 →
    parse_elements (parse_value f) f2 ts acc = Some (JArr (acc ++ l), rest).
Proof.
  intros Hne Hl. induction Hl as [|x l Hx Hl IH]; [done|].
  intros acc f f2 rest ts Hf Hf2. subst ts.
  destruct l as [|x' l'].
  - simpl in *. destruct f2 as [|f2]; [rewrite length_app in Hf2; simpl in Hf2; lia|].
    simpl. by rewrite (Hx f (TRBracket :: rest) Hf).
  - change (join [TComma] (map tokens (x :: x' :: l'))) with
      (tokens x ++ [TComma] ++ join [TComma] (map tokens (x' :: l'))) in *.
    rewrite <- !app_assoc in *. simpl app in *.
    rewrite length_app in Hf2. simpl in Hf2.
    destruct f2 as [|f2]; [lia|].
    cbn [parse_elements]. rewrite (Hx f _ Hf).
    rewrite IH; [by rewrite <- app_assoc | done | |].
    + rewrite length_app in Hf. simpl in Hf. lia.
    + lia.
Qed.

Lemma parse_members_tokens (m : list (string * json)) :
  m ≠ [] → Forall (λ kv, parses kv.2) m →
  ∀ acc f f2 rest,
    let ts := join [TComma]
                (map (λ kv, TStr kv.1 :: TColon :: tokens kv.2) m) ++
              TRBrace :: rest in
    NoDup (keys (acc ++ m)) →
    length ts < f → length ts ≤ f2 →
    parse_members (parse_value f) f2 ts acc = Some (JObj (acc ++ m), rest).
Proof.
  intros Hne Hm. induction Hm as [|[k x] m Hx Hm IH]; [done|].
  intros acc f f2 rest ts Hnd Hf Hf2. subst ts. simpl in Hx.
  assert (Hk : k ∉ keys acc).
  { unfold keys in *. rewrite fmap_app in Hnd.
    apply NoDup_app in Hnd as (_ & Hnd & _). intros Hin.
    apply (Hnd k Hin). simpl. left. }
  destruct m as [|kx' m'].
  - simpl in *. destruct f2 as [|f2]; [lia|]. cbn [parse_members].
    rewrite (Hx f (TRBrace :: rest)) by lia.
    by rewrite obj_set_fresh.
  - remember (kx' :: m') as m1 eqn:Em1.
    assert (Ej : join [TComma]
        (map (λ kv, TStr kv.1 :: TColon :: tokens kv.2) ((k, x) :: m1)) =
      TStr k :: TColon :: tokens x ++ TComma ::
        join [TComma] (map (λ kv, TStr kv.1 :: TColon :: tokens kv.2) m1)).
    { subst m1. reflexivity. }
    rewrite Ej in *. clear Ej.
    set (J := join [TComma] (map (λ kv, TStr kv.1 :: TColon :: tokens kv.2) m1)) in *.
    simpl app in Hf, Hf2 |- *. rewrite <- ?app_assoc in Hf, Hf2 |- *.
    simpl app in Hf, Hf2 |- *. simpl in Hf, Hf2.
    rewrite !length_app in Hf, Hf2. simpl in Hf, Hf2.
    destruct f2 as [|f2]; [lia|].
    cbn [parse_members]. rewrite (Hx f _) by (rewrite length_app; simpl; lia).
    rewrite obj_set_fresh by done.
    subst J. rewrite IH.
    + by rewrite <- app_assoc.
    + by subst m1.
    + by rewrite <- app_assoc.
    + lia.
    + lia.
Qed.

Lemma tokens_arr_app l rest :
  tokens (JArr l) ++ rest =
    TLBracket :: join [TComma] (map tokens l) ++ TRBracket :: rest.
Proof. simpl. by rewrite <- app_assoc. Qed.

Lemma tokens_obj_app m rest :
  tokens (JObj m) ++ rest =
    TLBrace ::
      join [TComma] (map (λ kv, TStr kv.1 :: TColon :: tokens kv.2) m) ++
      TRBrace :: rest.
Proof. simpl. by rewrite <- app_assoc. Qed.

Lemma parse_tokens v : wf_json v → parses v.
Proof.
  induction v as [| b | n | s | l IH | m IH] using json_ind; intros Hwf f rest Hf.
  - destruct f; [simpl in Hf; lia | done].
  - destruct f; [simpl in Hf; lia | by destruct b].
  - destruct f; [simpl in Hf; lia | done].
  - destruct f; [simpl in Hf; lia | done].
  - apply wf_json_arr in Hwf.
    destruct f as [|f]; [simpl in Hf; lia|].
    destruct l as [|x l]; [done|].
    rewrite tokens_arr_app in *.
    destruct (tokens_head x) as (t & ts & Ex & Ht).
    assert (Ej : ∃ r, join [TComma] (map tokens (x :: l)) ++ TRBracket :: rest = t :: r).
    { destruct l; simpl; rewrite Ex; by eexists. }
    destruct Ej as (r & Ej). rewrite Ej, (parse_value_array _ _ _ Ht), <- Ej.
    rewrite length_cons in Hf.
    apply (parse_elements_tokens (x :: l)); [done | | lia | lia].
    clear -IH Hwf. induction IH; inversion Hwf; subst; constructor; auto.
  - apply wf_json_obj in Hwf as [Hnd Hwf].
    destruct f as [|f]; [simpl in Hf; lia|].
    destruct m as [|[k x] m]; [done|].
    rewrite tokens_obj_app in *.
    assert (Ej : ∃ r,
      join [TComma] (map (λ kv, TStr kv.1 :: TColon :: tokens kv.2) ((k, x) :: m)) ++
        TRBrace :: rest = TStr k :: r).
    { destruct m; simpl; by eexists. }
    destruct Ej as (r & Ej). rewrite Ej.
    change (parse_value (S f) (TLBrace :: TStr k :: r)) with
      (parse_members (parse_value f) f (TStr k :: r) []).
    rewrite <- Ej. rewrite length_cons in Hf.
    apply (parse_members_tokens ((k, x) :: m)); [done | | done | lia | lia].
    clear -IH Hwf. induction IH; inversion Hwf; subst; constructor; auto.
Qed.

Lemma all_ws_gap n : all_ws (replicate n " ").
Proof. induction n; by constructor. Qed.

Lemma reread_wf v : wf_json v → wf_json (reread v).
Proof.
  induction v as [| b | n | s | l IH | m IH] using json_ind; intros Hwf;
    try done.
  - simpl. unfold reread_number. case_decide; [done|].
    by destruct (Number_scan _) as [[]|].
  - apply wf_json_arr in Hwf. cbn [reread]. apply wf_json_arr.
    apply Forall_fmap. clear -IH Hwf.
    induction IH; inversion Hwf; subst; constructor; auto.
  - apply wf_json_obj in Hwf as [Hnd Hwf]. cbn [reread]. apply wf_json_obj.
    split.
    + unfold keys in *. change (map ?f m) with (f <$> m).
      rewrite <- list_fmap_compose. exact Hnd.
    + apply Forall_fmap. clear -IH Hwf.
      induction IH; inversion Hwf; subst; constructor; auto.
Qed.

(** [JSON.parse(JSON.stringify(v, null, space))] is [v] with its numbers
    read back. *)
Theorem JSON_parse_stringify_reread v space :
  wf_json v → JSON_parse (JSON_stringify v space) = Some (reread v).
Proof.
  intros Hwf. unfold JSON_parse, JSON_stringify.
  rewrite list_ascii_of_string_of_list_ascii.
  rewrite lex_stringify by apply all_ws_gap.
  pose proof (parse_tokens (reread v) (reread_wf v Hwf)
                (S (length (tokens (reread v)))) []) as Hp.
  rewrite app_nil_r in Hp. by rewrite Hp by lia.
Qed.

(** *** parsed values are well formed *)

Lemma obj_set_wf k v (o : list (string * json)) :
  wf_json v → wf_members o → wf_members (obj_set k v o).
Proof.
  intros Hv [Hnd Hwf]. destruct (decide (k ∈ keys o)) as [Hin|Hin].
  - assert (Hk : keys (obj_set k v o) = keys o).
    { clear -Hin. unfold keys in *. induction o as [|[k' v'] o IH]; [by apply elem_of_nil in Hin|].
      simpl. case_decide; [by subst|]. rewrite fmap_cons. f_equal. apply IH.
      rewrite fmap_cons in Hin. apply elem_of_cons in Hin as [?|?]; done. }
    split; [by rewrite Hk|].
    clear -Hv Hwf. induction Hwf as [|[k' v'] o Hx Hwf IH]; [by repeat constructor|].
    simpl. case_decide; constructor; done.
  - rewrite obj_set_fresh by done. split.
    + unfold keys in *. rewrite fmap_app. apply NoDup_app. split; [done|].
      split; [|apply NoDup_singleton].
      intros x Hx Hx'. apply list_elem_of_singleton in Hx'. by subst.
    + apply Forall_app. split; [done|]. by repeat constructor.
Qed.

Lemma parse_elements_wf pv : yields_wf pv →
  ∀ f ts acc v r, Forall wf_json acc →
    parse_elements pv f ts acc = Some (v, r) → wf_json v.
Proof.
  intros Hpv f. induction f as [|f IH]; intros ts acc v r Hacc Hp; [done|].
  simpl in Hp. destruct (pv ts) as [[x [|t r']]|] eqn:E; try done.
  assert (Hx : Forall wf_json (acc ++ [x])).
  { apply Forall_app. split; [done|]. repeat constructor. by eapply Hpv. }
  destruct t; try done.
  - injection Hp as <- <-. by apply wf_json_arr.
  - by eapply IH.
Qed.

Lemma parse_members_wf pv : yields_wf pv →
  ∀ f ts acc v r, wf_members acc →
    parse_members pv f ts acc = Some (v, r) → wf_json v.
Proof.
  intros Hpv f. induction f as [|f IH]; intros ts acc v r Hacc Hp; [done|].
  simpl in Hp. destruct ts as [|[| | | | | | | | |k|] [|[] ts]]; try done.
  destruct (pv ts) as [[x [|t r']]|] eqn:E; try done.
  assert (Hx : wf_members (obj_set k x acc)).
  { apply obj_set_wf; [by eapply Hpv | done]. }
  destruct t; try done.
  - injection Hp as <- <-. by apply wf_json_obj.
  - by eapply IH.
Qed.

Lemma parse_value_wf f : yields_wf (parse_value f).
Proof.
  induction f as [|f IH]; intros ts v r Hp; [done|].
  destruct ts as [|t ts]; [simpl in Hp; done|].
  destruct t; simpl in Hp; try done; try (by injection Hp as <- <-).
  - destruct ts as [|t ts]; [|destruct t];
      try (injection Hp as <- <-; by repeat constructor);
      (eapply parse_members_wf; [exact IH | | exact Hp]; by split; constructor).
  - destruct ts as [|t ts]; [|destruct t];
      try (injection Hp as <- <-; by repeat constructor);
      (eapply parse_elements_wf; [exact IH | | exact Hp]; constructor).
Qed.

Lemma JSON_parse_wf text v : JSON_parse text = Some v → wf_json v.
Proof.
  unfold JSON_parse. destruct (lex _ _) as [ts|]; [|done].
  destruct (parse_value _ ts) as [[x [|]]|] eqn:E; try done.
  intros [= <-]. by eapply parse_value_wf.
Qed.

End Roundtrip.

(** *** numbers that print back *)

Section RoundtripExact.
Context `{JSNumber} {laws : JSNumberLaws}.

Lemma laws_prints : JSNumberPrints.
Proof.
  split. intros n. right.
  destruct (Number_toString_start n) as (c & r & E & Hc).
  exists c, r, n. split; [done|]. split; [done|].
  apply Number_scan_toString.
Qed.

Lemma reread_number_exact n : reread_number n = JNum n.
Proof.
  destruct (Number_toString_start n) as (c & r & E & Hc).
  apply (reread_number_literal n c r n E Hc).
  pose proof (Number_scan_toString n [] I) as Hs.
  by rewrite app_nil_r in Hs.
Qed.

Lemma reread_exact v : reread v = v.
Proof.
  induction v as [| b | n | s | l IH | m IH] using json_ind; try done.
  - apply reread_number_exact.
  - cbn [reread]. f_equal. induction IH as [|x l Hx _ IHl]; [done|].
    simpl. by rewrite Hx, IHl.
  - cbn [reread]. f_equal. induction IH as [|[k x] m Hx _ IHm]; [done|].
    simpl in *. by rewrite Hx, IHm.
Qed.

Theorem JSON_parse_stringify v space :
  wf_json v → JSON_parse (JSON_stringify v space) = Some v.
Proof.
  intros Hwf.
  rewrite (JSON_parse_stringify_reread (prints := laws_prints) v space Hwf).
  by rewrite reread_exact.
Qed.

End RoundtripExact.

(** ** What the schema accepts and what it returns *)

Section Validator.
Context `{JSNumber}.
Local Open Scope string_scope.
Local Open Scope list_scope.

Lemma z_literal_OK value path input v :
  z_literal value path input = OK v ↔ input = Some (JStr value) ∧ v = input.
Proof.
  unfold z_literal. destruct input as [[| | | s | |]|]; try (split; [done | by intros [[=] _]]).
  case_decide; split; try done.
  - intros [= <-]. by subst.
  - intros [[= ->] ->]. done.
  - intros [[= ->] _]. done.
Qed.

Lemma z_enum_OK values path input v :
  z_enum values path input = OK v ↔
    ∃ s, input = Some (JStr s) ∧ s ∈ values ∧ v = input.
Proof.
  unfold z_enum. destruct input as [[| | | s | |]|];
    try (split; [done | by intros (? & [=] & _)]).
  case_decide; split; try done.
  - intros [= <-]. by exists s.
  - intros (s' & [= <-] & _ & ->). done.
  - intros (s' & [= <-] & ? & _). done.
Qed.

Lemma record_any_pairs path (data : list (string * json)) :
  mergeObjectSync
    (map (λ kv, (kv.1, z_any (path ++ [PKey kv.1]) (Some kv.2))) data) =
  OK (Some (JObj (kept data))).
Proof.
  unfold mergeObjectSync.
  assert (Hv : forallb (λ p : string * ParseReturn, is_valid p.2)
    (map (λ kv : string * json, (kv.1, z_any (path ++ [PKey kv.1]) (Some kv.2))) data) = true).
  { induction data as [|[k x] data IH]; [done|]. simpl. exact IH. }
  rewrite Hv. clear Hv. do 3 f_equal. unfold kept.
  induction data as [|[k x] data IH]; [done|].
  rewrite filter_cons, <- IH. cbn [map z_any fst snd].
  unfold omap at 1. cbn [list_omap fst snd]. fold (@omap list _).
  unfold z_any. destruct (decide (k = "__proto__")); by case_decide.
Qed.

Lemma properties_OK path input v :
  z_optional (z_record z_any) path input = OK v ↔
    (input = None ∨ ∃ d, input = Some (JObj d)) ∧ v = parsed_properties input.
Proof.
  unfold z_optional, z_record.
  destruct input as [[| | | | | d]|]; simpl;
    try (split; [done | by intros [[[=]|(? & [=])] _]]).
  - rewrite record_any_pairs. split.
    + intros [= <-]. split; [right; by eexists | done].
    + by intros [_ ->].
  - split; [intros [= <-]; by split; [left|] | by intros [_ ->]].
Qed.

Lemma merge2 k1 k2 (r1 r2 : ParseReturn) v :
  mergeObjectSync [(k1, r1); (k2, r2)] = OK v ↔
    ∃ v1 v2, r1 = OK v1 ∧ r2 = OK v2 ∧
      v = Some (JObj (omap (λ p : string * jsval,
             match p.2 with
             | Some x => if decide (p.1 = "__proto__") then None else Some (p.1, x)
             | None => None
             end) [(k1, v1); (k2, v2)])).
Proof.
  unfold mergeObjectSync. destruct r1 as [v1|], r2 as [v2|]; simpl;
    try (split; [done | by intros (? & ? & ? & ? & ?)]).
  split.
  - intros [= <-]. exists v1, v2. by destruct v1, v2.
  - intros (? & ? & [= <-] & [= <-] & ->). by destruct v1, v2.
Qed.

Lemma geometry_OK path input v :
  geometry path input = OK v ↔
    ∃ g t, input = Some (JObj g) ∧ obj_get "type" g = Some (JStr t) ∧
           t ∈ geometry_kinds ∧ v = Some (parsed_geometry t g).
Proof.
  unfold geometry, z_object.
  destruct input as [[| | | | | g]|];
    try (split; [done | by intros (? & ? & [=] & _)]).
  cbn [map fst snd]. rewrite merge2. split.
  - intros (v1 & v2 & H1 & H2 & ->).
    apply z_enum_OK in H1 as (t & Ht & Hin & ->).
    injection H2 as <-. exists g, t. rewrite Ht. repeat split; try done.
    unfold parsed_geometry. simpl. by destruct (obj_get "coordinates" g).
  - intros (g' & t & [= <-] & Ht & Hin & ->).
    exists (Some (JStr t)), (obj_get "coordinates" g). split; [|split; [done|]].
    + apply z_enum_OK. by exists t.
    + unfold parsed_geometry. simpl. by destruct (obj_get "coordinates" g).
Qed.

Lemma merge3 k1 k2 k3 (r1 r2 r3 : ParseReturn) v :
  mergeObjectSync [(k1, r1); (k2, r2); (k3, r3)] = OK v ↔
    ∃ v1 v2 v3, r1 = OK v1 ∧ r2 = OK v2 ∧ r3 = OK v3 ∧
      v = Some (JObj (omap (λ p : string * jsval,
             match p.2 with
             | Some x => if decide (p.1 = "__proto__") then None else Some (p.1, x)
             | None => None
             end) [(k1, v1); (k2, v2); (k3, v3)])).
Proof.
  unfold mergeObjectSync. destruct r1 as [v1|], r2 as [v2|], r3 as [v3|]; simpl;
    try (split; [done | by intros (? & ? & ? & ? & ? & ? & ?)]).
  split.
  - intros [= <-]. exists v1, v2, v3. by destruct v1, v2, v3.
  - intros (? & ? & ? & [= <-] & [= <-] & [= <-] & ->). by destruct v1, v2, v3.
Qed.

Lemma feature_OK path input v :
  feature path input = OK v ↔
    ∃ x y, input = Some x ∧ v = Some y ∧ is_feature x y.
Proof.
  unfold feature, z_object.
  destruct input as [[| | | | | m]|];
    try (split; [done | by intros (? & ? & [= <-] & _ & (? & ? & ? & [=] & _))]).
  cbn [map fst snd]. rewrite merge3. split.
  - intros (v1 & v2 & v3 & H1 & H2 & H3 & ->).
    apply z_literal_OK in H1 as [Ht ->].
    apply geometry_OK in H2 as (g & t & Hg & Hgt & Hin & ->).
    apply properties_OK in H3 as [Hp ->].
    eexists _, _. split; [done|]. split; [|exists m, g, t; repeat split; try done].
    rewrite Ht. unfold parsed_feature. simpl.
    by destruct (parsed_properties (obj_get "properties" m)).
  - intros (x & y & [= <-] & -> & (m' & g & t & [= <-] & Ht & Hg & Hgt & Hin & Hp & ->)).
    exists (Some (JStr "Feature")), (Some (parsed_geometry t g)),
      (parsed_properties (obj_get "properties" m)).
    split; [by apply z_literal_OK|]. split; [apply geometry_OK; by exists g, t|].
    split; [by apply properties_OK|].
    unfold parsed_feature. simpl.
    by destruct (parsed_properties (obj_get "properties" m)).
Qed.

Lemma mergeArray_values (os : list jsval) :
  mergeArray (OK <$> os) = OK (Some (JArr (default JNull <$> os))).
Proof.
  unfold mergeArray.
  assert (Hv : forallb is_valid (OK <$> os) = true) by (by induction os).
  rewrite Hv. clear Hv. do 3 f_equal.
  induction os as [|o os IH]; [done|].
  rewrite !fmap_cons. cbn [map]. rewrite <- IH. by destruct o.
Qed.

Lemma all_valid_values (rs : list ParseReturn) :
  forallb is_valid rs = true → ∃ os, rs = OK <$> os.
Proof.
  induction rs as [|[o|] rs IH]; simpl; intros Hv; try done.
  - by exists [].
  - destruct (IH Hv) as (os & ->). by exists (o :: os).
Qed.

Lemma mergeArray_OK (rs : list ParseReturn) v :
  mergeArray rs = OK v ↔
    ∃ os, rs = OK <$> os ∧ v = Some (JArr (default JNull <$> os)).
Proof.
  split.
  - intros Hm. unfold mergeArray in Hm.
    destruct (forallb is_valid rs) eqn:E; [|done].
    destruct (all_valid_values rs E) as (os & ->).
    exists os. split; [done|].
    fold (mergeArray (OK <$> os)) in Hm.
    pose proof (mergeArray_values os) as Hm'. unfold mergeArray in Hm'.
    rewrite E in Hm'. congruence.
  - intros (os & -> & ->). apply mergeArray_values.
Qed.

Lemma imap_values {A} (g : nat → A → ParseReturn) (Q : A → jsval → Prop) :
  (∀ i x o, g i x = OK o ↔ Q x o) →
  ∀ l os, imap g l = OK <$> os ↔ Forall2 Q l os.
Proof.
  intros Hg l. revert g Hg. induction l as [|x l IH]; intros g Hg os.
  - simpl. split.
    + destruct os; [constructor | done].
    + intros Hq. by inversion Hq.
  - simpl. split.
    + destruct os as [|o os]; [done|]. rewrite fmap_cons. intros [= Hx Hl].
      constructor; [by apply (Hg 0)|]. apply (IH (g ∘ S)); [|done].
      intros i y o'. apply Hg.
    + intros Hq. inversion Hq as [|? o ? os' Hx Hl]; subst.
      rewrite fmap_cons. f_equal; [by apply (Hg 0)|].
      apply (IH (g ∘ S)); [|done]. intros i y o'. apply Hg.
Qed.

Lemma features_OK path input v :
  z_array feature path input = OK v ↔
    ∃ fs vs, input = Some (JArr fs) ∧ Forall2 is_feature fs vs ∧
             v = Some (JArr vs).
Proof.
  unfold z_array.
  destruct input as [[| | | | fs |]|];
    try (split; [done | by intros (? & ? & [=] & _)]).
  rewrite mergeArray_OK.
  pose proof (imap_values
    (λ i v, feature (path ++ [PIndex i]) (Some v))
    (λ x o, ∃ y, o = Some y ∧ is_feature x y)) as Hi.
  split.
  - intros (os & Hos & ->). apply Hi in Hos.
    + exists fs, (default JNull <$> os). split; [done|]. split; [|done].
      clear -Hos. induction Hos as [|x o fs os (y & -> & Hy) _ IH]; by constructor.
    + intros i x o. rewrite feature_OK. split.
      * intros (x' & y & [= <-] & -> & Hy). by exists y.
      * intros (y & -> & Hy). by exists x, y.
  - intros (fs' & vs & [= <-] & Hvs & ->). exists (Some <$> vs). split.
    + apply Hi.
      * intros i x o. rewrite feature_OK. split.
        -- intros (x' & y & [= <-] & -> & Hy). by exists y.
        -- intros (y & -> & Hy). by exists x, y.
      * clear -Hvs. induction Hvs; constructor; [by eexists | done].
    + do 2 f_equal. clear. induction vs as [|y vs IH]; [done|].
      rewrite !fmap_cons. simpl. by rewrite <- IH.
Qed.

Lemma featureCollection_OK path input v :
  featureCollection path input = OK v ↔
    ∃ x y, input = Some x ∧ v = Some y ∧ is_featureCollection x y.
Proof.
  unfold featureCollection, z_object.
  destruct input as [[| | | | | m]|];
    try (split; [done | by intros (? & ? & [= <-] & _ & (? & ? & ? & [=] & _))]).
  cbn [map fst snd]. rewrite merge2. split.
  - intros (v1 & v2 & H1 & H2 & ->).
    apply z_literal_OK in H1 as [Ht ->].
    apply features_OK in H2 as (fs & vs & Hfs & Hvs & ->).
    eexists _, _. split; [done|]. split; [|exists m, fs, vs; repeat split; done].
    by rewrite Ht.
  - intros (x & y & [= <-] & -> & (m' & fs & vs & [= <-] & Ht & Hfs & Hvs & ->)).
    exists (Some (JStr "FeatureCollection")), (Some (JArr vs)).
    split; [by apply z_literal_OK|]. split; [|done].
    apply features_OK. by exists fs, vs.
Qed.

Lemma feature_not_collection x y y' :
  is_feature x y → is_featureCollection x y' → False.
Proof.
  intros (m & g & t & -> & Ht & _) (m' & fs & vs & [= <-] & Ht' & _). congruence.
Qed.

Lemma is_feature_det x y y' : is_feature x y → is_feature x y' → y = y'.
Proof.
  intros (m & g & t & -> & ? & ? & ? & ? & ? & ->)
         (m' & g' & t' & [= <-] & ? & ? & ? & ? & ? & ->).
  congruence.
Qed.

Lemma are_features_det fs vs vs' :
  Forall2 is_feature fs vs → Forall2 is_feature fs vs' → vs = vs'.
Proof.
  intros Hvs. revert vs'. induction Hvs as [|a b fs vs Hab _ IH]; intros vs' Hvs';
    inversion Hvs' as [|? b' ? vs'' Hab' Hrest]; subst; [done|].
  rewrite (is_feature_det _ _ _ Hab Hab'). by rewrite (IH _ Hrest).
Qed.

Lemma is_featureCollection_det x y y' :
  is_featureCollection x y → is_featureCollection x y' → y = y'.
Proof.
  intros (m & fs & vs & -> & Ht & Hfs & Hvs & ->)
         (m' & fs' & vs' & [= <-] & Ht' & Hfs' & Hvs' & ->).
  assert (fs' = fs) as -> by congruence.
  by rewrite (are_features_det _ _ _ Hvs Hvs').
Qed.

Lemma geojsonSchema_OK path input v :
  geojsonSchema path input = OK v ↔
    ∃ x y, input = Some x ∧ v = Some y ∧
           (is_featureCollection x y ∨ is_feature x y).
Proof.
  unfold geojsonSchema, z_union. cbn [union_options].
  destruct (featureCollection path input) as [v1|i1] eqn:E1.
  - apply featureCollection_OK in E1 as (x & y & -> & -> & Hfc). split.
    + intros [= <-]. exists x, y. split; [done|]. split; [done|]. by left.
    + intros (x' & y' & [= <-] & -> & [Hfc'|Hf]).
      * by rewrite (is_featureCollection_det _ _ _ Hfc Hfc').
      * destruct (feature_not_collection _ _ _ Hf Hfc).
  - destruct (feature path input) as [v2|i2] eqn:E2.
    + apply feature_OK in E2 as (x & y & -> & -> & Hf). split.
      * intros [= <-]. exists x, y. split; [done|]. split; [done|]. by right.
      * intros (x' & y' & [= <-] & -> & [Hfc|Hf']).
        -- destruct (feature_not_collection _ _ _ Hf Hfc).
        -- by rewrite (is_feature_det _ _ _ Hf Hf').
    + split; [done|]. intros (x & y & -> & -> & [Hfc|Hf]).
      * assert (Hc : featureCollection path (Some x) = OK (Some y))
          by (apply featureCollection_OK; by exists x, y).
        congruence.
      * assert (Hc : feature path (Some x) = OK (Some y))
          by (apply feature_OK; by exists x, y).
        congruence.
Qed.

(** *** the schema returns well-formed values *)

Lemma wf_obj_get (m : list (string * json)) k v :
  wf_json (JObj m) → obj_get k m = Some v → wf_json v.
Proof.
  intros [_ Hwf]%wf_json_obj. induction Hwf as [|[k' v'] m Hx _ IH]; [done|].
  simpl. case_decide; [by intros [= <-] | exact IH].
Qed.

Lemma kept_wf (d : list (string * json)) : wf_members d → wf_members (kept d).
Proof.
  intros [Hnd Hwf]. split.
  - apply (sublist_NoDup (keys (kept d)) (keys d)); [done|].
    unfold keys, kept. apply fmap_sublist, sublist_filter.
  - clear Hnd. unfold kept. induction Hwf as [|x d Hx _ IH]; [constructor|].
    rewrite filter_cons. case_decide; [constructor|]; done.
Qed.

Ltac nodup_keys := cbn [member]; simpl keys; compute_done.
Ltac wf_members :=
  repeat first [apply Forall_nil_2 | apply Forall_cons_2]; cbn [snd member].

Lemma parsed_geometry_wf t (g : list (string * json)) :
  wf_json (JObj g) → wf_json (parsed_geometry t g).
Proof.
  intros Hg. unfold parsed_geometry. apply wf_json_obj.
  destruct (obj_get "coordinates" g) as [c|] eqn:E;
    (split; [nodup_keys|]); wf_members; try done.
  by eapply wf_obj_get.
Qed.

Lemma is_feature_wf x y : wf_json x → is_feature x y → wf_json y.
Proof.
  intros Hx (m & g & t & -> & Ht & Hg & Hgt & Hin & Hp & ->).
  assert (Hwg : wf_json (parsed_geometry t g)).
  { apply parsed_geometry_wf. by eapply wf_obj_get. }
  unfold parsed_feature. apply wf_json_obj.
  destruct Hp as [Hp | (d & Hp)]; rewrite Hp;
    (split; [nodup_keys|]); wf_members; try done.
  apply wf_json_obj, kept_wf, wf_json_obj. exact (wf_obj_get _ _ _ Hx Hp).
Qed.

Lemma are_features_wf fs vs :
  Forall wf_json fs → Forall2 is_feature fs vs → Forall wf_json vs.
Proof.
  intros Hfs Hvs. induction Hvs as [|x y fs vs Hxy _ IH]; [done|].
  inversion Hfs; subst. constructor; [by eapply is_feature_wf | by apply IH].
Qed.

Lemma is_featureCollection_wf x y :
  wf_json x → is_featureCollection x y → wf_json y.
Proof.
  intros Hx (m & fs & vs & -> & Ht & Hfs & Hvs & ->).
  apply wf_json_obj. split; [nodup_keys|]. wf_members; [done|].
  apply wf_json_arr. eapply are_features_wf; [|exact Hvs].
  apply wf_json_arr. by eapply wf_obj_get.
Qed.

Lemma validated_wf path D v :
  wf_json D → geojsonSchema path (Some D) = OK (Some v) → wf_json v.
Proof.
  intros HD (x & y & [= <-] & [= <-] & [Hfc|Hf])%geojsonSchema_OK.
  - by eapply is_featureCollection_wf.
  - by eapply is_feature_wf.
Qed.

(** *** documents that validation leaves structurally unchanged *)

Ltac not_among Hin :=
  repeat (apply elem_of_cons in Hin as [?|Hin]; [done|]);
  by apply elem_of_nil in Hin.

Lemma obj_get_elem k (m : list (string * json)) v :
  obj_get k m = Some v → (k, v) ∈ m.
Proof.
  induction m as [|[k' v'] m IH]; [done|]. simpl.
  case_decide; [intros [= <-]; subst; left | intros Hv; right; by apply IH].
Qed.

Lemma obj_get_None k (m : list (string * json)) :
  k ∉ keys m → obj_get k m = None.
Proof.
  unfold keys. induction m as [|[k' v'] m IH]; [done|].
  rewrite fmap_cons, not_elem_of_cons. simpl. intros [Hne Hk].
  rewrite decide_False by done. by apply IH.
Qed.

Lemma struct_eq_refl v : struct_eq v v.
Proof.
  induction v as [| b | n | s | l IH | m IH] using json_ind; try by constructor.
  - constructor. induction IH; by constructor.
  - constructor. intros k. destruct (obj_get k m) as [v|] eqn:E; constructor.
    apply obj_get_elem in E. rewrite Forall_forall in IH. by apply (IH (k, v)).
Qed.

Lemma kept_plain (d : list (string * json)) : "__proto__" ∉ keys d → kept d = d.
Proof.
  unfold keys, kept. induction d as [|[k v] d IH]; [done|].
  rewrite fmap_cons, not_elem_of_cons. simpl. intros [Hne Hk].
  rewrite filter_cons. simpl. rewrite decide_True by done. by rewrite IH.
Qed.

Lemma struct_eq_geometry t (g : list (string * json)) :
  obj_get "type" g = Some (JStr t) → keys g ⊆ ["type"; "coordinates"] →
  struct_eq (parsed_geometry t g) (JObj g).
Proof.
  intros Ht Hk. constructor. intros k. unfold parsed_geometry.
  destruct (decide (k = "type")) as [->|Hk1].
  { simpl. rewrite Ht. constructor. constructor. }
  destruct (decide (k = "coordinates")) as [->|Hk2].
  { destruct (obj_get "coordinates" g) as [c|]; simpl; constructor.
    apply struct_eq_refl. }
  rewrite (obj_get_None k g).
  - destruct (obj_get "coordinates" g); simpl; rewrite !decide_False by done;
      constructor.
  - intros Hin. apply Hk in Hin. not_among Hin.
Qed.

Lemma is_feature_plain x y : is_feature x y → plain_feature x → struct_eq y x.
Proof.
  intros (m & g & t & -> & Ht & Hg & Hgt & Hkind & Hp & ->) [Hd Hproto].
  destruct Hd as (m' & [= <-] & Hk & Hgk).
  destruct (Hgk _ Hg) as (gm & [= <-] & Hkg).
  constructor. intros k. unfold parsed_feature.
  destruct (decide (k = "type")) as [->|Hk1].
  { simpl. rewrite Ht. constructor. constructor. }
  destruct (decide (k = "geometry")) as [->|Hk2].
  { simpl. rewrite Hg. constructor. by apply struct_eq_geometry. }
  destruct (decide (k = "properties")) as [->|Hk3].
  { simpl. destruct Hp as [Hp | (d & Hp)]; rewrite Hp; simpl; constructor.
    rewrite kept_plain by (by eapply Hproto). apply struct_eq_refl. }
  rewrite (obj_get_None k m).
  - destruct (parsed_properties (obj_get "properties" m)); simpl;
      rewrite !decide_False by done; constructor.
  - intros Hin. apply Hk in Hin. not_among Hin.
Qed.

Lemma is_featureCollection_plain x y :
  is_featureCollection x y → plain_document x → struct_eq y x.
Proof.
  intros (m & fs & vs & -> & Ht & Hfs & Hvs & ->) [[Hd _] | Hc].
  - destruct Hd as (m' & [= <-] & Hk & _). exfalso.
    apply obj_get_elem in Hfs.
    assert (Hin : "features" ∈ keys m).
    { unfold keys. apply list_elem_of_fmap. by exists ("features", JArr fs). }
    apply Hk in Hin. not_among Hin.
  - destruct Hc as (m' & [= <-] & Hk & Hplain). specialize (Hplain fs Hfs).
    constructor. intros k.
    destruct (decide (k = "type")) as [->|Hk1].
    { simpl. rewrite Ht. constructor. constructor. }
    destruct (decide (k = "features")) as [->|Hk2].
    { simpl. rewrite Hfs. constructor. constructor.
      clear -Hvs Hplain. induction Hvs as [|a b fs vs Hab _ IH]; [constructor|].
      inversion Hplain; subst. constructor; [by apply is_feature_plain | by apply IH]. }
    rewrite (obj_get_None k m).
    + simpl. rewrite !decide_False by done. constructor.
    + intros Hin. apply Hk in Hin. not_among Hin.
Qed.

Lemma validated_plain path D v :
  geojsonSchema path (Some D) = OK (Some v) → plain_document D → struct_eq v D.
Proof.
  intros (x & y & [= <-] & [= <-] & [Hfc|Hf])%geojsonSchema_OK Hp.
  - by apply is_featureCollection_plain.
  - apply is_feature_plain; [done|]. destruct Hp as [Hp | (m & -> & Hk & _)]; [done|].
    exfalso. destruct Hf as (m' & g & t & [= <-] & _ & Hg & _).
    apply obj_get_elem in Hg.
    assert (Hin : "geometry" ∈ keys m).
    { unfold keys. apply list_elem_of_fmap. by exists ("geometry", JObj g). }
    apply Hk in Hin. not_among Hin.
Qed.

(** *** issues, declared members, and updates of an object *)

Lemma geojsonSchema_issues path input issues :
  geojsonSchema path input = INVALID issues → issues ≠ [].
Proof.
  unfold geojsonSchema, z_union. cbn [union_options].
  destruct (featureCollection path input); [done|].
  destruct (feature path input); [done|]. by intros [= <-].
Qed.

Lemma parsed_feature_declared t (m g : list (string * json)) :
  declared_feature (parsed_feature t m g).
Proof.
  eexists. split; [reflexivity|]. split.
  - destruct (parsed_properties (obj_get "properties" m)); simpl; compute_done.
  - simpl. intros g' [= <-]. eexists. split; [reflexivity|].
    destruct (obj_get "coordinates" g); simpl; compute_done.
Qed.

Lemma validated_declared path D v :
  geojsonSchema path (Some D) = OK (Some v) →
  declared_feature v ∨ declared_collection v.
Proof.
  intros (x & y & [= <-] & [= <-] & [Hfc|Hf])%geojsonSchema_OK.
  - right. destruct Hfc as (m & fs & vs & -> & _ & _ & Hvs & ->).
    eexists. split; [reflexivity|]. split; [simpl; compute_done|].
    simpl. intros fs' [= <-]. eexists. split; [reflexivity|].
    clear -Hvs. induction Hvs as [|x y fs vs Hxy _ IH]; constructor; [|done].
    destruct Hxy as (m & g & t & _ & _ & _ & _ & _ & _ & ->).
    apply parsed_feature_declared.
  - left. destruct Hf as (m & g & t & _ & _ & _ & _ & _ & _ & ->).
    apply parsed_feature_declared.
Qed.

Lemma obj_get_set_eq k v (o : list (string * json)) :
  obj_get k (obj_set k v o) = Some v.
Proof.
  induction o as [|[k' v'] o IH]; simpl; [by rewrite decide_True|].
  case_decide; simpl; [by rewrite decide_True | by rewrite decide_False].
Qed.

Lemma obj_get_set_ne k k' v (o : list (string * json)) :
  k ≠ k' → obj_get k (obj_set k' v o) = obj_get k o.
Proof.
  intros Hne. induction o as [|[k'' v''] o IH]; simpl; [by rewrite decide_False|].
  case_decide; simpl; [subst; by rewrite !decide_False|].
  by rewrite IH.
Qed.

End Validator.

(** ** Validation and numbers read back *)

Section Reread.
Context `{JSNumber}.
Local Open Scope string_scope.
Local Open Scope list_scope.

Lemma obj_get_reread k (m : list (string * json)) :
  obj_get k (map (λ kv, (kv.1, reread kv.2)) m) = reread <$> obj_get k m.
Proof.
  induction m as [|[k' x] m IH]; [done|]. simpl. by case_decide.
Qed.

Lemma member_reread k (x : jsval) :
  map (λ kv, (kv.1, reread kv.2)) (member k x) = member k (reread <$> x).
Proof. by destruct x. Qed.

Lemma kept_reread (d : list (string * json)) :
  kept (map (λ kv, (kv.1, reread kv.2)) d) =
    map (λ kv, (kv.1, reread kv.2)) (kept d).
Proof.
  unfold kept. induction d as [|[k x] d IH]; [done|].
  simpl map. rewrite !filter_cons. simpl. case_decide; simpl; by rewrite IH.
Qed.

Lemma parsed_geometry_reread t (g : list (string * json)) :
  reread (parsed_geometry t g) =
    parsed_geometry t (map (λ kv, (kv.1, reread kv.2)) g).
Proof.
  unfold parsed_geometry. cbn [reread map fst snd].
  by rewrite member_reread, obj_get_reread.
Qed.

Lemma is_feature_reread x y :
  is_feature x y → is_feature (reread x) (reread y).
Proof.
  intros (m & g & t & -> & Ht & Hg & Hgt & Hkind & Hp & ->).
  exists (map (λ kv, (kv.1, reread kv.2)) m),
    (map (λ kv, (kv.1, reread kv.2)) g), t.
  split; [done|]. rewrite !obj_get_reread, Ht, Hg, Hgt.
  split; [done|]. split; [done|]. split; [done|]. split; [done|].
  unfold parsed_feature. cbn [reread map fst snd].
  rewrite parsed_geometry_reread, member_reread, obj_get_reread.
  destruct Hp as [Hp | (d & Hp)]; rewrite Hp; simpl.
  - split; [by left|done].
  - split; [right; by eexists|]. by rewrite kept_reread.
Qed.

Lemma are_features_reread fs vs :
  Forall2 is_feature fs vs →
  Forall2 is_feature (map reread fs) (map reread vs).
Proof.
  induction 1; simpl; constructor; [by apply is_feature_reread | done].
Qed.

Lemma is_featureCollection_reread x y :
  is_featureCollection x y → is_featureCollection (reread x) (reread y).
Proof.
  intros (m & fs & vs & -> & Ht & Hfs & Hvs & ->).
  exists (map (λ kv, (kv.1, reread kv.2)) m), (map reread fs), (map reread vs).
  split; [done|]. rewrite !obj_get_reread, Ht, Hfs.
  split; [done|]. split; [done|]. split; [by apply are_features_reread | done].
Qed.

(** The schema commutes with reading the numbers back. *)
Lemma accepted_reread x y :
  is_featureCollection x y ∨ is_feature x y →
  is_featureCollection (reread x) (reread y) ∨ is_feature (reread x) (reread y).
Proof.
  intros [?|?]; [left; by apply is_featureCollection_reread |
                 right; by apply is_feature_reread].
Qed.

Lemma accepted_det x y y' :
  is_featureCollection x y ∨ is_feature x y →
  is_featureCollection x y' ∨ is_feature x y' → y = y'.
Proof.
  intros [Hc|Hf] [Hc'|Hf'].
  - by eapply is_featureCollection_det.
  - by destruct (feature_not_collection x y' y).
  - by destruct (feature_not_collection x y y').
  - by eapply is_feature_det.
Qed.

Lemma struct_eq_reread x y : struct_eq x y → struct_eq (reread x) (reread y).
Proof.
  revert y. induction x as [| b | n | s | l IH | m IH] using json_ind;
    intros y Hxy; inversion Hxy as [| | | |? l' Hl|? m' Hm]; subst;
    try apply struct_eq_refl.
  - cbn [reread]. constructor. clear Hxy. revert l' Hl.
    induction IH as [|x l Hx _ IHl]; intros l' Hl; inversion Hl; subst;
      simpl; constructor; auto.
  - cbn [reread]. constructor. intros k. rewrite !obj_get_reread.
    specialize (Hm k).
    destruct (obj_get k m) as [a|] eqn:Ea; inversion Hm as [? b Hab|]; subst;
      simpl; constructor.
    apply obj_get_elem in Ea. rewrite Forall_forall in IH.
    by apply (IH _ Ea).
Qed.

End Reread.

(** ** [path.join] on the storage root *)

Section Paths.
Local Open Scope string_scope.
Local Open Scope list_scope.

Lemma split_slash_plain s : has_slash s = false → split_slash s = [s].
Proof.
  induction s as [|c s IH]; [done|]. simpl.
  case_decide; [done|]. intros Hs. by rewrite (IH Hs).
Qed.

Lemma has_slash_app a b : has_slash (a +:+ b) = has_slash a || has_slash b.
Proof.
  induction a as [|c a IH]; [done|]. simpl. by case_decide.
Qed.

Lemma length_append a b :
  String.length (a +:+ b) = String.length a + String.length b.
Proof. induction a as [|c a IH]; [done|]. simpl. by rewrite IH. Qed.

Lemma normalize_step_plain acc seg :
  2 < String.length seg → normalize_step acc seg = acc ++ [seg].
Proof.
  intros Hl. unfold normalize_step.
  repeat case_decide; subst; simpl in Hl; try lia; done.
Qed.

Lemma fold_normal p acc :
  normal_path p → fold_left normalize_step p acc = acc ++ p.
Proof.
  intros Hp. revert acc. induction Hp as [|seg p (H1 & H2 & H3) _ IH]; intros acc.
  - by rewrite app_nil_r.
  - simpl. unfold normalize_step at 2. rewrite !decide_False by done.
    rewrite IH. by rewrite <- app_assoc.
Qed.

Lemma path_join_plain base rel :
  normal_path base → has_slash rel = false → 2 < String.length rel →
  path_join base rel = base ++ [rel].
Proof.
  intros Hb Hs Hl. unfold path_join, normalize.
  rewrite (split_slash_plain _ Hs), fold_left_app, (fold_normal _ _ Hb).
  simpl. by apply normalize_step_plain.
Qed.

Lemma normal_path_snoc base seg :
  normal_path base → 2 < String.length seg → normal_path (base ++ [seg]).
Proof.
  intros Hb Hl. apply Forall_app. split; [done|].
  repeat constructor; intros ->; simpl in Hl; lia.
Qed.

Lemma UPLOAD_DIR_normal dirname :
  normal_path dirname →
  UPLOAD_DIR dirname = dirname ++ ["data"; "uploads"] ∧
  normal_path (UPLOAD_DIR dirname).
Proof.
  intros Hd. unfold UPLOAD_DIR, DATA_DIR.
  rewrite (path_join_plain dirname "data") by (try done; simpl; lia).
  assert (Hdata : normal_path (dirname ++ ["data"]))
    by (apply normal_path_snoc; [done | simpl; lia]).
  rewrite (path_join_plain _ "uploads") by (try done; simpl; lia).
  split; [by rewrite <- app_assoc|].
  apply normal_path_snoc; [done | simpl; lia].
Qed.

Lemma filePath_of_plain dirname id :
  normal_path dirname → has_slash id = false →
  filePath_of dirname id = UPLOAD_DIR dirname ++ [id +:+ ".geojson"].
Proof.
  intros Hd Hs. destruct (UPLOAD_DIR_normal dirname Hd) as [_ Hu].
  unfold filePath_of. apply path_join_plain; [done | |].
  - by rewrite has_slash_app, Hs.
  - rewrite length_append. simpl. lia.
Qed.

End Paths.

(** ** The handlers, case by case *)

Section Handlers.
Context `{JSNumber} (__dirname : path).
Local Open Scope string_scope.
Local Open Scope list_scope.

Lemma get_geojson_found id w f :
  files w !! filePath_of __dirname id = Some f →
  get_geojson __dirname id w =
    (inl {| status := 200;
            headers := [("Content-Type", HText "application/geo+json");
                        ("Cache-Control", HText "public, max-age=300");
                        ("Last-Modified", HDate (mtime f))];
            body := Stream (Some (content f)) |},
     record_call (CreateReadStream (filePath_of __dirname id))
       (record_call (Stat (filePath_of __dirname id)) w)).
Proof.
  intros Hf. unfold get_geojson, try_catch, mbind, M_bind, fs_stat.
  rewrite Hf. unfold fs_createReadStream. simpl. by rewrite Hf.
Qed.

Lemma get_geojson_missing id w :
  files w !! filePath_of __dirname id = None →
  get_geojson __dirname id w =
    (inl (res_json 404 (ErrorBody "Not found")),
     record_call (Stat (filePath_of __dirname id)) w).
Proof.
  intros Hf. unfold get_geojson, try_catch, mbind, M_bind, fs_stat.
  by rewrite Hf.
Qed.

Lemma post_geojson_invalid env req D issues w :
  request_json req = Some D →
  geojsonSchema [] (Some D) = INVALID issues →
  post_geojson __dirname env req w =
    (inl (res_json 400 (ErrorDetails "Invalid GeoJSON" issues)), w).
Proof.
  unfold request_json, post_geojson, try_catch. intros Hreq Hv.
  destruct (rawText_of req) as [text|]; [|done]. simpl in Hreq.
  rewrite Hreq. unfold schema_parse, mbind, M_bind. by rewrite Hv.
Qed.

Lemma post_geojson_written env req D v w :
  request_json req = Some D →
  geojsonSchema [] (Some D) = OK (Some v) →
  write_ends env = WriteCompletes →
  let filePath := filePath_of __dirname (uuid env) in
  let pretty := JSON_stringify v 2 in
  post_geojson __dirname env req w =
    (inl (res_json 201
            (Created (uuid env) ("/api/geojson/" +:+ uuid env)
               (String.length pretty))),
     {| files := <[filePath := {| content := pretty; mtime := now env |}]> (files w);
        calls := calls w ++ [WriteFile filePath pretty] |}).
Proof.
  unfold request_json, post_geojson, try_catch. intros Hreq Hv Hw.
  destruct (rawText_of req) as [text|]; [|done]. simpl in Hreq.
  rewrite Hreq. unfold schema_parse, mbind, M_bind. rewrite Hv.
  unfold mret, M_ret, fs_writeFile. by rewrite Hw.
Qed.

Lemma post_geojson_write_failed env req D v w :
  request_json req = Some D →
  geojsonSchema [] (Some D) = OK (Some v) →
  write_ends env ≠ WriteCompletes →
  let filePath := filePath_of __dirname (uuid env) in
  let pretty := JSON_stringify v 2 in
  post_geojson __dirname env req w =
    (inl (res_json 500 (ErrorBody "Internal error")),
     {| files :=
          match write_ends env with
          | WriteFailsAfter written =>
              <[filePath := {| content := take_string written pretty;
                               mtime := now env |}]> (files w)
          | _ => files w
          end;
        calls := calls w ++ [WriteFile filePath pretty] |}).
Proof.
  unfold request_json, post_geojson, try_catch. intros Hreq Hv Hw.
  destruct (rawText_of req) as [text|]; [|done]. simpl in Hreq.
  rewrite Hreq. unfold schema_parse, mbind, M_bind. rewrite Hv.
  unfold mret, M_ret, fs_writeFile. by destruct (write_ends env).
Qed.

Lemma request_json_wf req D : request_json req = Some D → wf_json D.
Proof.
  unfold request_json. destruct (rawText_of req) as [text|]; [|done].
  apply JSON_parse_wf.
Qed.

End Handlers.

(** ** The claims *)

Section Claims.
Context `{JSNumber} (__dirname : path).
Local Open Scope string_scope.
Local Open Scope list_scope.

(** C1 (amended).  The retrieval handler does not validate the identifier:
    whatever the identifier is, it joins it to the storage root and calls
    [stat] on the result.  When the identifier contains no path separator
    (as every identifier issued by an upload), the path is the file
    [<id>.geojson] directly inside the storage root. *)
Theorem get_geojson_takes_any_identifier id w :
  normal_path __dirname →
  (∃ r w' later, get_geojson __dirname id w = (inl r, w') ∧
     calls w' = calls w ++ Stat (filePath_of __dirname id) :: later) ∧
  (has_slash id = false →
     filePath_of __dirname id = UPLOAD_DIR __dirname ++ [id +:+ ".geojson"] ∧
     inside (UPLOAD_DIR __dirname) (filePath_of __dirname id)).
Proof.
  intros Hd. split.
  - destruct (files w !! filePath_of __dirname id) as [f|] eqn:E.
    + rewrite (get_geojson_found _ _ _ _ E). eexists _, _, [_].
      split; [done|]. simpl. by rewrite <- app_assoc.
    + rewrite (get_geojson_missing _ _ _ E). by eexists _, _, [].
  - intros Hs. pose proof (filePath_of_plain __dirname id Hd Hs) as E.
    split; [done|]. rewrite E. by eexists [_].
Qed.

(** C4.  When the JSON carried by an upload fails validation, the handler
    answers 400 with the body [{error: "Invalid GeoJSON", details: issues}],
    where [issues] is the non-empty list of violations, and the world is
    left as it was: no file is written and [fs] is not called. *)
Theorem invalid_upload_is_rejected env req D issues w :
  request_json req = Some D →
  geojsonSchema [] (Some D) = INVALID issues →
  post_geojson __dirname env req w =
    (inl (res_json 400 (ErrorDetails "Invalid GeoJSON" issues)), w) ∧
  issues ≠ [].
Proof.
  intros Hreq Hv. split; [by apply post_geojson_invalid with D|].
  by eapply geojsonSchema_issues.
Qed.

(** C7 (amended).  Retrieval never answers 500 and never changes a file.
    It answers 404 with the body [{error: "Not found"}] exactly when no file
    exists at the path formed from the identifier,
    [path.join(UPLOAD_DIR, id + ".geojson")]; for an identifier without a
    path separator (as every identifier issued by an upload) that path is
    the record [<id>.geojson] of the store.  An identifier with separators
    that was never issued can name an existing file, and is then
    answered 200. *)
Theorem retrieval_is_not_found_iff_no_file id w :
  ∃ r w', get_geojson __dirname id w = (inl r, w') ∧
    status r ≠ 500 ∧ files w' = files w ∧
    (files w !! filePath_of __dirname id = None ↔
       r = res_json 404 (ErrorBody "Not found")) ∧
    (files w !! filePath_of __dirname id = None ↔ status r = 404) ∧
    (normal_path __dirname → has_slash id = false →
       filePath_of __dirname id = UPLOAD_DIR __dirname ++ [id +:+ ".geojson"]).
Proof.
  destruct (files w !! filePath_of __dirname id) as [f|] eqn:Hf.
  - rewrite (get_geojson_found _ _ _ _ Hf). eexists _, _.
    split; [done|]. split; [done|]. split; [done|].
    split; [by split|]. split; [by split|]. apply filePath_of_plain.
  - rewrite (get_geojson_missing _ _ _ Hf). eexists _, _.
    split; [done|]. split; [done|]. split; [done|].
    split; [by split|]. split; [by split|]. apply filePath_of_plain.
Qed.

(** C5.  The schema accepts a value only if it is an object whose [type] is
    ["Feature"] and that satisfies the Feature rule, or an object whose
    [type] is ["FeatureCollection"] and whose [features] are Features (the
    empty collection is one).  The bare geometry
    [{type: "Polygon", coordinates: []}] is rejected, and an upload that
    carries it is answered 400 and creates no record. *)
Theorem only_features_and_collections :
  (∀ input v, geojsonSchema [] input = OK v →
     ∃ x y, input = Some x ∧ v = Some y ∧
       (is_featureCollection x y ∨ is_feature x y)) ∧
  geojsonSchema [] (Some empty_collection) = OK (Some empty_collection) ∧
  (∃ issues, geojsonSchema [] (Some bare_polygon) = INVALID issues ∧
     request_json (JsonBody bare_polygon) = Some bare_polygon ∧
     ∀ env req w, request_json req = Some bare_polygon →
       post_geojson __dirname env req w =
         (inl (res_json 400 (ErrorDetails "Invalid GeoJSON" issues)), w)).
Proof.
  split; [|split].
  - intros input v Hv. by apply geojsonSchema_OK in Hv.
  - reflexivity.
  - eexists. split; [reflexivity|]. split; [reflexivity|].
    intros env req w Hreq. by apply post_geojson_invalid with bare_polygon.
Qed.

(** C6.  A Feature is accepted only if it has a [geometry] object whose
    [type] is one of the seven geometry kinds; the geometry type
    ["Triangle"] is rejected with an [invalid_enum_value] issue at
    [geometry.type]; and a Feature that is otherwise acceptable stays
    accepted whatever JSON value is put in [coordinates]. *)
Theorem feature_geometry_type_is_checked :
  (∀ path input v, feature path input = OK v →
     ∃ m g t, input = Some (JObj m) ∧
       obj_get "geometry" m = Some (JObj g) ∧
       obj_get "type" g = Some (JStr t) ∧ t ∈ geometry_kinds) ∧
  geojsonSchema [] (Some triangle_feature) =
    INVALID [invalid_union
      [[invalid_literal "FeatureCollection" (Some (JStr "Feature")) [PKey "type"];
        invalid_type (ExpectedType ZArray) ZUndefined [PKey "features"]];
       [invalid_enum_value geometry_kinds "Triangle"
          [PKey "geometry"; PKey "type"]]] []] ∧
  (∀ path m g t,
     obj_get "type" m = Some (JStr "Feature") →
     obj_get "geometry" m = Some (JObj g) →
     obj_get "type" g = Some (JStr t) → t ∈ geometry_kinds →
     (obj_get "properties" m = None ∨
      ∃ d, obj_get "properties" m = Some (JObj d)) →
     ∀ c, ∃ y,
       feature path
         (Some (JObj (obj_set "geometry" (JObj (obj_set "coordinates" c g)) m))) =
       OK (Some y)).
Proof.
  split; [|split].
  - intros path input v (x & y & -> & -> & Hf)%feature_OK.
    destruct Hf as (m & g & t & -> & _ & Hg & Ht & Hin & _). by exists m, g, t.
  - reflexivity.
  - intros path m g t Hm Hg Ht Hin Hp c. eexists. apply feature_OK.
    eexists _, _. split; [done|]. split; [done|].
    exists (obj_set "geometry" (JObj (obj_set "coordinates" c g)) m),
      (obj_set "coordinates" c g), t.
    split; [done|].
    rewrite !obj_get_set_ne by done. rewrite obj_get_set_eq.
    repeat split; rewrite ?obj_get_set_ne by done; done.
Qed.

(** C9.  A Feature whose geometry has a valid type and no [coordinates]
    member at all is accepted, and the parsed geometry has the [type]
    member only. *)
Theorem geometry_without_coordinates_is_accepted m g t :
  obj_get "type" m = Some (JStr "Feature") →
  obj_get "geometry" m = Some (JObj g) →
  obj_get "type" g = Some (JStr t) → t ∈ geometry_kinds →
  obj_get "coordinates" g = None →
  (obj_get "properties" m = None ∨
   ∃ d, obj_get "properties" m = Some (JObj d)) →
  ∃ ym, geojsonSchema [] (Some (JObj m)) = OK (Some (JObj ym)) ∧
        obj_get "geometry" ym = Some (JObj [("type", JStr t)]).
Proof.
  intros Hm Hg Ht Hin Hc Hp.
  exists (("type", JStr "Feature") :: ("geometry", parsed_geometry t g) ::
          member "properties" (parsed_properties (obj_get "properties" m))).
  split.
  - apply geojsonSchema_OK. eexists _, _. split; [done|]. split; [done|].
    right. by exists m, g, t.
  - simpl. unfold parsed_geometry. by rewrite Hc.
Qed.

(** C8.  The value [v] the schema returns for an accepted document [D]
    is [D] stripped: for a Feature, its [type], the [type] and the
    [coordinates] of its geometry, and its [properties] (less a
    ["__proto__"] key), with nothing else; for a FeatureCollection, its
    [type] and the stripped [features].  So [v] has only the declared
    members, and [v], not the uploaded [D], is what the handler serialises
    and writes; when the write completes the upload is answered 201 and
    the file holds the text of [v]. *)
Theorem validation_strips_undeclared_members env req D v w :
  request_json req = Some D →
  geojsonSchema [] (Some D) = OK (Some v) →
  (is_featureCollection D v ∨ is_feature D v) ∧
  (declared_feature v ∨ declared_collection v) ∧
  ∃ r w', post_geojson __dirname env req w = (inl r, w') ∧
    calls w' = calls w ++
      [WriteFile (filePath_of __dirname (uuid env)) (JSON_stringify v 2)] ∧
    (write_ends env = WriteCompletes →
       status r = 201 ∧
       content <$> files w' !! filePath_of __dirname (uuid env) =
         Some (JSON_stringify v 2)).
Proof.
  intros Hreq Hv. split; [|split; [by eapply validated_declared|]].
  { by apply geojsonSchema_OK in Hv as (x & y & [= <-] & [= <-] & Hxy). }
  destruct (decide (write_ends env = WriteCompletes)) as [Hw|Hw].
  - rewrite (post_geojson_written _ _ _ _ _ _ Hreq Hv Hw).
    eexists _, _. split; [done|]. split; [done|]. intros _.
    split; [done|]. simpl. by rewrite lookup_insert_eq.
  - rewrite (post_geojson_write_failed _ _ _ _ _ _ Hreq Hv Hw).
    eexists _, _. split; [done|]. by split.
Qed.

(** C3 (amended).  When the write of an accepted document cannot complete,
    the upload is answered 500 with [{error: "Internal error"}].  The data is
    written straight to [<id>.geojson]: a failure before the file is opened
    leaves the files as they were, but after a failure that follows
    [written] bytes the file holds those bytes and retrieval by the
    identifier serves them. *)
Theorem failed_write_is_not_undone env req D v w :
  request_json req = Some D →
  geojsonSchema [] (Some D) = OK (Some v) →
  write_ends env ≠ WriteCompletes →
  let filePath := filePath_of __dirname (uuid env) in
  let pretty := JSON_stringify v 2 in
  ∃ w1,
    post_geojson __dirname env req w =
      (inl (res_json 500 (ErrorBody "Internal error")), w1) ∧
    calls w1 = calls w ++ [WriteFile filePath pretty] ∧
    (write_ends env = WriteFailsBeforeOpen → files w1 = files w) ∧
    (∀ written, write_ends env = WriteFailsAfter written →
       files w1 !! filePath =
         Some {| content := take_string written pretty; mtime := now env |} ∧
       ∃ r w2, get_geojson __dirname (uuid env) w1 = (inl r, w2) ∧
         status r = 200 ∧
         body r = Stream (Some (take_string written pretty))).
Proof.
  intros Hreq Hv Hw filePath pretty.
  rewrite (post_geojson_write_failed _ _ _ _ _ _ Hreq Hv Hw).
  eexists. split; [done|]. split; [done|]. split.
  - intros E. simpl. by rewrite E.
  - intros written E. simpl. rewrite E.
    assert (Hl : (<[filePath := {| content := take_string written pretty;
                      mtime := now env |}]> (files w)) !! filePath =
      Some {| content := take_string written pretty; mtime := now env |})
      by apply lookup_insert_eq.
    split; [done|].
    eexists _, _. split; [by apply get_geojson_found|]. done.
Qed.

Section WithPrints.
Context {prints : JSNumberPrints}.

(** C2 (amended).  When an upload carries a document [D] that the schema
    accepts with result [v], and the write completes, the upload is
    answered 201 with the identifier, and retrieving that identifier yields
    bytes that parse back to [reread v]: the document as the schema
    returned it, that is with its undeclared members (and a ["__proto__"]
    property key) stripped, and with each number as [JSON.parse] reads its
    printed form ([null] for a number that is not finite, [0] for [-0]).
    When [D] has no undeclared member, [v] is structurally equal to [D]
    and what the bytes parse back to is structurally equal to [D] with its
    numbers read back; when the numbers of [D] print back, the bytes parse
    back to [v] itself. *)
Theorem upload_then_retrieve env req D v w :
  request_json req = Some D →
  geojsonSchema [] (Some D) = OK (Some v) →
  write_ends env = WriteCompletes →
  (∃ w1 r w2 bytes,
     post_geojson __dirname env req w =
       (inl (res_json 201
               (Created (uuid env) ("/api/geojson/" +:+ uuid env)
                  (String.length bytes))), w1) ∧
     get_geojson __dirname (uuid env) w1 = (inl r, w2) ∧
     status r = 200 ∧ body r = Stream (Some bytes) ∧
     JSON_parse bytes = Some (reread v)) ∧
  (is_featureCollection D v ∨ is_feature D v) ∧
  (plain_document D → struct_eq v D ∧ struct_eq (reread v) (reread D)) ∧
  (reread D = D → reread v = v ∧ (plain_document D → struct_eq (reread v) D)).
Proof.
  intros Hreq Hv Hw.
  assert (Hrel : is_featureCollection D v ∨ is_feature D v).
  { by apply geojsonSchema_OK in Hv as (x & y & [= <-] & [= <-] & Hxy). }
  assert (Hplain : plain_document D →
                   struct_eq v D ∧ struct_eq (reread v) (reread D)).
  { intros HD. pose proof (validated_plain [] D v Hv HD) as Hs.
    split; [done | by apply struct_eq_reread]. }
  split; [|split; [done|split; [done|]]].
  - rewrite (post_geojson_written _ _ _ _ _ _ Hreq Hv Hw).
    eexists _, _, _, (JSON_stringify v 2). split; [done|].
    split; [|split; [|split]].
    + apply get_geojson_found. apply lookup_insert_eq.
    + done.
    + done.
    + apply JSON_parse_stringify_reread. eapply validated_wf; [|exact Hv].
      by eapply request_json_wf.
  - intros HD. split.
    + pose proof (accepted_reread _ _ Hrel) as Hr. rewrite HD in Hr.
      exact (accepted_det D (reread v) v Hr Hrel).
    + intros Hp. destruct (Hplain Hp) as [_ Hs]. by rewrite HD in Hs.
Qed.

(** C10.  On the [application/json] path the text handed to [JSON.parse]
    is [JSON.stringify(req.body)], which always parses, to the body with
    its numbers read back ([null] where the body holds a number that is
    not finite): the handler answers, and never with
    [{error: "Invalid JSON"}]. *)
Theorem json_body_always_parses env b w :
  wf_json b →
  JSON_parse (JSON_stringify b 0) = Some (reread b) ∧
  request_json (JsonBody b) = Some (reread b) ∧
  ∃ r w', post_geojson __dirname env (JsonBody b) w = (inl r, w') ∧
    body r ≠ ErrorBody "Invalid JSON".
Proof.
  intros Hb. pose proof (JSON_parse_stringify_reread b 0 Hb) as Hp.
  assert (Hreq : request_json (JsonBody b) = Some (reread b)) by exact Hp.
  split; [done|]. split; [done|].
  destruct (geojsonSchema [] (Some (reread b))) as [[v|]|issues] eqn:Hv.
  - destruct (decide (write_ends env = WriteCompletes)) as [Hw|Hw].
    + rewrite (post_geojson_written _ _ _ _ _ _ Hreq Hv Hw). by eexists _, _.
    + rewrite (post_geojson_write_failed _ _ _ _ _ _ Hreq Hv Hw). by eexists _, _.
  - apply geojsonSchema_OK in Hv as (? & ? & _ & [=] & _).
  - rewrite (post_geojson_invalid _ _ _ _ _ _ Hreq Hv). by eexists _, _.
Qed.

End WithPrints.

End Claims.

(** ** Counterexamples and witnesses

    Closed statements at the example deployment ([example_dirname],
    [example_env]), with integer numbers or, where numbers that do not
    print back matter, with the integers that have a signed zero and
    overflow. *)

Section Examples.
Local Open Scope string_scope.
Local Open Scope list_scope.

(** C1, as stated, fails: the identifier [../../secret] (the route
    parameter of [GET /api/geojson/..%2F..%2Fsecret]) is not rejected; the
    path it forms lies outside the storage root, [stat] and the read stream
    are called on it, and the file found there is served. *)
Lemma traversal_counterexample :
  filePath_of example_dirname "../../secret" = ["srv"; "app"; "secret.geojson"] ∧
  ¬ inside (UPLOAD_DIR example_dirname)
      (filePath_of example_dirname "../../secret") ∧
  get_geojson example_dirname "../../secret" world_with_secret =
    (inl {| status := 200;
            headers := [("Content-Type", HText "application/geo+json");
                        ("Cache-Control", HText "public, max-age=300");
                        ("Last-Modified", HDate 0)];
            body := Stream (Some "top secret") |},
     {| files := files world_with_secret;
        calls := [Stat ["srv"; "app"; "secret.geojson"];
                  CreateReadStream ["srv"; "app"; "secret.geojson"]] |}).
Proof.
  split; [reflexivity|]. split.
  - by intros (rest & _ & [=]).
  - by rewrite (get_geojson_found example_dirname "../../secret" world_with_secret
             {| content := "top secret"; mtime := 0 |}).
Qed.

(** C2, as stated, fails: [feature_with_id] is accepted, but the bytes
    retrieved after its upload parse back to a value without the [id] and
    [bbox] members, which is not structurally equal to the document. *)
Lemma roundtrip_counterexample :
  geojsonSchema [] (Some feature_with_id) = OK (Some stripped_feature_with_id) ∧
  ∃ w1 r w2 bytes,
    post_geojson example_dirname (example_env WriteCompletes)
      (JsonBody feature_with_id) empty_world =
      (inl (res_json 201
              (Created example_id ("/api/geojson/" +:+ example_id)
                 (String.length bytes))), w1) ∧
    get_geojson example_dirname example_id w1 = (inl r, w2) ∧
    body r = Stream (Some bytes) ∧
    JSON_parse bytes = Some stripped_feature_with_id ∧
    ¬ struct_eq stripped_feature_with_id feature_with_id.
Proof.
  assert (Hv : geojsonSchema [] (Some feature_with_id) =
               OK (Some stripped_feature_with_id)) by reflexivity.
  assert (Hreq : request_json (JsonBody feature_with_id) = Some feature_with_id)
    by reflexivity.
  split; [done|].
  rewrite (post_geojson_written example_dirname (example_env WriteCompletes)
             _ _ _ empty_world Hreq Hv eq_refl).
  eexists _, _, _, _. split; [reflexivity|].
  split; [apply get_geojson_found, lookup_insert_eq|].
  split; [reflexivity|]. split; [reflexivity|].
  intros Hse. inversion Hse as [| | | | |m m' Hk]; subst.
  specialize (Hk "id"). inversion Hk.
Qed.

(** C3, as stated, fails: when the write of the empty collection fails
    after 20 bytes, the upload is answered 500, yet retrieval by the
    generated identifier answers 200 with the 20 bytes, a truncated document
    that is not even JSON. *)
Lemma truncated_write_counterexample :
  ∃ w1 r w2 bytes,
    post_geojson example_dirname (example_env (WriteFailsAfter 20))
      (JsonBody empty_collection) empty_world =
      (inl (res_json 500 (ErrorBody "Internal error")), w1) ∧
    get_geojson example_dirname example_id w1 = (inl r, w2) ∧
    status r = 200 ∧ body r = Stream (Some bytes) ∧
    bytes = take_string 20 (JSON_stringify empty_collection 2) ∧
    bytes ≠ JSON_stringify empty_collection 2 ∧
    JSON_parse bytes = None.
Proof.
  assert (Hv : geojsonSchema [] (Some empty_collection) =
               OK (Some empty_collection)) by reflexivity.
  assert (Hreq : request_json (JsonBody empty_collection) = Some empty_collection)
    by reflexivity.
  rewrite (post_geojson_write_failed example_dirname (example_env (WriteFailsAfter 20))
             _ _ _ empty_world Hreq Hv ltac:(done)).
  eexists _, _, _, _. split; [reflexivity|].
  split; [apply get_geojson_found, lookup_insert_eq|].
  split; [reflexivity|]. split; [reflexivity|]. split; [reflexivity|].
  split; [|reflexivity].
  vm_compute. discriminate.
Qed.

(** C7, as stated, fails.  With no record at all in the store, the
    identifier [../../secret] is answered 200; and after one upload, the
    identifier [x/../<id>], which no upload has issued, is answered 200
    with the record of [<id>]. *)
Lemma unissued_identifier_counterexample :
  (∀ p, inside (UPLOAD_DIR example_dirname) p →
        files world_with_secret !! p = None) ∧
  (∃ r w', get_geojson example_dirname "../../secret" world_with_secret =
             (inl r, w') ∧
           status r = 200 ∧ body r = Stream (Some "top secret")) ∧
  ∃ w1 bytes r w2,
    post_geojson example_dirname (example_env WriteCompletes)
      (JsonBody empty_collection) empty_world =
      (inl (res_json 201
              (Created example_id ("/api/geojson/" +:+ example_id)
                 (String.length bytes))), w1) ∧
    (∀ p, is_Some (files w1 !! p) ↔
          p = UPLOAD_DIR example_dirname ++ [example_id +:+ ".geojson"]) ∧
    alias_id ≠ example_id ∧
    get_geojson example_dirname alias_id w1 = (inl r, w2) ∧
    status r = 200 ∧ body r = Stream (Some bytes).
Proof.
  split; [|split].
  - intros p (rest & _ & ->). by apply lookup_singleton_ne.
  - rewrite (get_geojson_found example_dirname "../../secret" world_with_secret
               {| content := "top secret"; mtime := 0 |}) by reflexivity.
    by eexists _, _.
  - assert (Hv : geojsonSchema [] (Some empty_collection) =
                 OK (Some empty_collection)) by reflexivity.
    assert (Hreq : request_json (JsonBody empty_collection) = Some empty_collection)
      by reflexivity.
    rewrite (post_geojson_written example_dirname (example_env WriteCompletes)
               _ _ _ empty_world Hreq Hv eq_refl).
    eexists _, _, _, _. split; [reflexivity|]. split; [|split].
    + intros p. simpl files. split.
      * intros [f Hf]. apply lookup_insert_Some in Hf as [[<- _]|[_ Hf]]; [done|].
        by rewrite lookup_empty in Hf.
      * intros ->. eexists. apply lookup_insert_eq.
    + discriminate.
    + split; [apply get_geojson_found, lookup_insert_eq|]. by split.
Qed.

Lemma example_dirname_normal : normal_path example_dirname.
Proof. repeat constructor; done. Qed.

(** Witnesses: the theorems above at the example deployment. *)

Lemma get_geojson_takes_any_identifier_witness :
  normal_path example_dirname ∧
  (∃ r w' later,
     get_geojson (H := IntegerNumbers.Z_number) example_dirname example_id empty_world = (inl r, w') ∧
     calls w' = calls empty_world ++
       Stat (filePath_of example_dirname example_id) :: later) ∧
  filePath_of example_dirname example_id =
    UPLOAD_DIR example_dirname ++ [example_id +:+ ".geojson"] ∧
  inside (UPLOAD_DIR example_dirname) (filePath_of example_dirname example_id).
Proof.
  pose proof (get_geojson_takes_any_identifier example_dirname example_id
                empty_world example_dirname_normal) as [Hcall Hpath].
  split; [exact example_dirname_normal|]. split; [exact Hcall|].
  exact (Hpath eq_refl).
Defined.

Lemma overflow_feature_plain : plain_document overflow_feature.
Proof.
  left. split.
  - eexists. split; [reflexivity|]. split; [compute_done|].
    intros g [= <-]. eexists. split; [reflexivity | compute_done].
  - intros m d [= <-] [=].
Qed.

(** The file with the coordinates [1e999] and [-0]: the retrieved bytes
    parse back to the coordinates [null] and [0]. *)
Lemma upload_then_retrieve_witness :
  request_json overflow_upload = Some overflow_feature ∧
  geojsonSchema [] (Some overflow_feature) = OK (Some overflow_feature) ∧
  reread overflow_feature = overflow_feature_reread ∧
  (∃ w1 r w2 bytes,
     post_geojson example_dirname (example_env WriteCompletes)
       overflow_upload empty_world =
       (inl (res_json 201
               (Created example_id ("/api/geojson/" +:+ example_id)
                  (String.length bytes))), w1) ∧
     get_geojson (H := SaturatingNumbers.S_number) example_dirname example_id w1 =
       (inl r, w2) ∧
     status r = 200 ∧ body r = Stream (Some bytes) ∧
     JSON_parse bytes = Some overflow_feature_reread) ∧
  struct_eq overflow_feature_reread (reread overflow_feature).
Proof.
  split; [reflexivity|]. split; [reflexivity|]. split; [reflexivity|].
  destruct (upload_then_retrieve
              (prints := SaturatingLaws.S_number_prints)
              example_dirname (example_env WriteCompletes)
              overflow_upload overflow_feature overflow_feature empty_world
              eq_refl eq_refl eq_refl)
    as (Hrun & _ & Heq & _).
  split; [exact Hrun | exact (proj2 (Heq overflow_feature_plain))].
Defined.

Lemma failed_write_is_not_undone_witness :
  request_json (JsonBody empty_collection) = Some empty_collection ∧
  geojsonSchema [] (Some empty_collection) = OK (Some empty_collection) ∧
  ∃ w1,
    post_geojson (H := IntegerNumbers.Z_number) example_dirname (example_env (WriteFailsAfter 20))
      (JsonBody empty_collection) empty_world =
      (inl (res_json 500 (ErrorBody "Internal error")), w1) ∧
    files w1 !! filePath_of example_dirname example_id =
      Some {| content := take_string 20 (JSON_stringify empty_collection 2);
              mtime := now (example_env (WriteFailsAfter 20)) |}.
Proof.
  split; [reflexivity|]. split; [reflexivity|].
  destruct (failed_write_is_not_undone example_dirname
              (example_env (WriteFailsAfter 20)) (JsonBody empty_collection)
              empty_collection empty_collection empty_world
              eq_refl eq_refl ltac:(discriminate))
    as (w1 & Hpost & _ & _ & Hfile).
  exists w1. split; [exact Hpost|]. exact (proj1 (Hfile 20 eq_refl)).
Defined.

Lemma invalid_upload_is_rejected_witness :
  ∃ issues,
    request_json (JsonBody bare_polygon) = Some bare_polygon ∧
    geojsonSchema (H := IntegerNumbers.Z_number) [] (Some bare_polygon) = INVALID issues ∧
    post_geojson example_dirname (example_env WriteCompletes)
      (JsonBody bare_polygon) empty_world =
      (inl (res_json 400 (ErrorDetails "Invalid GeoJSON" issues)), empty_world) ∧
    issues ≠ [].
Proof.
  eexists. split; [reflexivity|]. split; [reflexivity|].
  exact (invalid_upload_is_rejected example_dirname (example_env WriteCompletes)
           (JsonBody bare_polygon) bare_polygon _ empty_world eq_refl eq_refl).
Defined.

Lemma validation_strips_undeclared_members_witness :
  request_json (JsonBody collection_with_id) = Some collection_with_id ∧
  geojsonSchema (H := IntegerNumbers.Z_number) [] (Some collection_with_id) =
    OK (Some stripped_collection_with_id) ∧
  (is_featureCollection (H := IntegerNumbers.Z_number)
     collection_with_id stripped_collection_with_id ∨
   is_feature collection_with_id stripped_collection_with_id) ∧
  (declared_feature (H := IntegerNumbers.Z_number) stripped_collection_with_id ∨
   declared_collection stripped_collection_with_id) ∧
  (∃ r w',
     post_geojson example_dirname (example_env WriteCompletes)
       (JsonBody collection_with_id) empty_world = (inl r, w') ∧
     status r = 201 ∧
     content <$> files w' !! filePath_of example_dirname example_id =
       Some (JSON_stringify stripped_collection_with_id 2)) ∧
  occurs "station-7" (JSON_stringify (H := IntegerNumbers.Z_number) collection_with_id 2) = true ∧
  occurs "station-7" (JSON_stringify (H := IntegerNumbers.Z_number) stripped_collection_with_id 2) = false ∧
  occurs "bbox" (JSON_stringify (H := IntegerNumbers.Z_number) stripped_collection_with_id 2) = false ∧
  occurs "stations" (JSON_stringify (H := IntegerNumbers.Z_number) stripped_collection_with_id 2) = false ∧
  occurs "Station" (JSON_stringify (H := IntegerNumbers.Z_number) stripped_collection_with_id 2) = true.
Proof.
  split; [reflexivity|]. split; [reflexivity|].
  destruct (validation_strips_undeclared_members example_dirname
              (example_env WriteCompletes) (JsonBody collection_with_id)
              collection_with_id stripped_collection_with_id empty_world
              eq_refl eq_refl)
    as (Hrel & Hdecl & r & w' & Hpost & _ & Hfile).
  split; [exact Hrel|]. split; [exact Hdecl|].
  split; [|repeat split; reflexivity].
  exists r, w'. split; [exact Hpost|]. exact (Hfile eq_refl).
Defined.

Lemma geometry_without_coordinates_is_accepted_witness :
  ∃ ym,
    geojsonSchema (H := IntegerNumbers.Z_number) [] (Some feature_without_coordinates) =
      OK (Some (JObj ym)) ∧
    obj_get "geometry" ym = Some (JObj [("type", JStr "Point")]).
Proof.
  apply (geometry_without_coordinates_is_accepted
           [("type", JStr "Feature"); ("geometry", JObj [("type", JStr "Point")])]
           [("type", JStr "Point")] "Point");
    try reflexivity; [compute_done | by left].
Defined.

Lemma overflow_feature_wf : wf_json overflow_feature.
Proof. simpl. repeat split; compute_done. Qed.

(** A body that holds an infinity and a negative zero. *)
Lemma json_body_always_parses_witness :
  wf_json overflow_feature ∧
  JSON_parse (JSON_stringify overflow_feature 0) = Some overflow_feature_reread ∧
  request_json (JsonBody overflow_feature) = Some overflow_feature_reread ∧
  ∃ r w',
    post_geojson example_dirname (example_env WriteCompletes)
      (JsonBody overflow_feature) empty_world = (inl r, w') ∧
    body r ≠ ErrorBody "Invalid JSON".
Proof.
  split; [exact overflow_feature_wf|].
  exact (json_body_always_parses (prints := SaturatingLaws.S_number_prints)
           example_dirname (example_env WriteCompletes) overflow_feature
           empty_world overflow_feature_wf).
Defined.

End Examples.

(** * Further properties of the handlers *)

Section HandlerFrames.
Context `{JSNumber} (__dirname : path).
Local Open Scope string_scope.
Local Open Scope list_scope.

(** The upload handler, branch by branch. *)
Lemma post_geojson_eq env req w :
  post_geojson __dirname env req w =
    match rawText_of req with
    | None =>
        (inl (res_json 400
                (ErrorBody "Send as multipart field `file` OR application/json")), w)
    | Some text =>
        match JSON_parse text with
        | None => (inl (res_json 400 (ErrorBody "Invalid JSON")), w)
        | Some D =>
            match geojsonSchema [] (Some D) with
            | INVALID issues =>
                (inl (res_json 400 (ErrorDetails "Invalid GeoJSON" issues)), w)
            | OK None => (inl (res_json 500 (ErrorBody "Internal error")), w)
            | OK (Some v) =>
                let filePath := filePath_of __dirname (uuid env) in
                let pretty := JSON_stringify v 2 in
                match write_ends env with
                | WriteCompletes =>
                    (inl (res_json 201
                            (Created (uuid env) ("/api/geojson/" +:+ uuid env)
                               (String.length pretty))),
                     {| files := <[filePath := {| content := pretty;
                                                  mtime := now env |}]> (files w);
                        calls := calls w ++ [WriteFile filePath pretty] |})
                | WriteFailsBeforeOpen =>
                    (inl (res_json 500 (ErrorBody "Internal error")),
                     {| files := files w;
                        calls := calls w ++ [WriteFile filePath pretty] |})
                | WriteFailsAfter written =>
                    (inl (res_json 500 (ErrorBody "Internal error")),
                     {| files := <[filePath := {| content := take_string written pretty;
                                                  mtime := now env |}]> (files w);
                        calls := calls w ++ [WriteFile filePath pretty] |})
                end
            end
        end
    end.
Proof.
  unfold post_geojson, try_catch.
  destruct (rawText_of req) as [text|]; [|done].
  destruct (JSON_parse text) as [D|]; [|done].
  unfold schema_parse, mbind, M_bind.
  destruct (geojsonSchema [] (Some D)) as [[v|]|issues]; try done.
  unfold mret, M_ret, fs_writeFile. by destruct (write_ends env).
Qed.

(** X1. The upload handler never fails: for every request, environment
    and disk it answers, with status 201, 400 or 500. *)
Theorem post_geojson_always_answers env req w :
  ∃ r w', post_geojson __dirname env req w = (inl r, w') ∧
    (status r = 201 ∨ status r = 400 ∨ status r = 500).
Proof.
  rewrite post_geojson_eq.
  destruct (rawText_of req) as [text|]; [|eexists _, _; split; [done|]; simpl; tauto].
  destruct (JSON_parse text) as [D|]; [|eexists _, _; split; [done|]; simpl; tauto].
  destruct (geojsonSchema [] (Some D)) as [[v|]|issues];
    try (eexists _, _; split; [done|]; simpl; tauto).
  simpl. destruct (write_ends env); eexists _, _; (split; [done|]); simpl; tauto.
Qed.

(** X2. The upload handler touches one file at most: a 400 answer leaves
    the disk and the record of file-system calls as they were; otherwise
    the only call added is one [writeFile] on the path of the generated
    identifier, every other file is as before, and on 201 that path holds
    the bytes whose length the answer reports. *)
Theorem post_geojson_touches_one_file env req w r w' :
  post_geojson __dirname env req w = (inl r, w') →
  let filePath := filePath_of __dirname (uuid env) in
  (status r = 400 → w' = w) ∧
  (∀ p, p ≠ filePath → files w' !! p = files w !! p) ∧
  (calls w' = calls w ∨ ∃ data, calls w' = calls w ++ [WriteFile filePath data]) ∧
  (status r = 201 →
     ∃ data, body r = Created (uuid env) ("/api/geojson/" +:+ uuid env)
                        (String.length data) ∧
       files w' !! filePath = Some {| content := data; mtime := now env |}).
Proof.
  rewrite post_geojson_eq. intros Hrun filePath.
  destruct (rawText_of req) as [text|];
    [|injection Hrun as <- <-; repeat split; auto; simpl; done].
  destruct (JSON_parse text) as [D|];
    [|injection Hrun as <- <-; repeat split; auto; simpl; done].
  destruct (geojsonSchema [] (Some D)) as [[v|]|issues];
    try (injection Hrun as <- <-; repeat split; auto; simpl; done).
  simpl in Hrun. fold filePath in Hrun.
  destruct (write_ends env); injection Hrun as <- <-; simpl.
  - split; [done|]. split; [intros p Hp; by rewrite lookup_insert_ne|].
    split; [right; by eexists|]. intros _. eexists. split; [done|].
    apply lookup_insert_eq.
  - split; [done|]. split; [done|]. split; [right; by eexists|]. done.
  - split; [done|]. split; [intros p Hp; by rewrite lookup_insert_ne|].
    split; [right; by eexists|]. done.
Qed.

(** X3. A request that carries no parsable JSON is answered 400 and
    changes nothing: [Invalid JSON] when there is text to parse, the
    request to send a file or a JSON body when there is none. *)
Theorem unreadable_upload_is_rejected env req w :
  request_json req = None →
  post_geojson __dirname env req w =
    (inl (res_json 400
            (ErrorBody (match rawText_of req with
                        | Some _ => "Invalid JSON"
                        | None => "Send as multipart field `file` OR application/json"
                        end))), w).
Proof.
  unfold request_json. rewrite post_geojson_eq.
  destruct (rawText_of req) as [text|]; [|done]. simpl. by intros ->.
Qed.

(** X4. Retrieval never changes a file and always answers: 200 with the
    content, the three headers ([Last-Modified] being the file's
    modification time) and one [stat] and one read stream when the path
    holds a file, 404 after the [stat] alone when it does not. *)
Theorem get_geojson_is_read_only id w :
  let filePath := filePath_of __dirname id in
  ∃ r w', get_geojson __dirname id w = (inl r, w') ∧
    files w' = files w ∧
    match files w !! filePath with
    | Some f =>
        status r = 200 ∧ body r = Stream (Some (content f)) ∧
        headers r = [("Content-Type", HText "application/geo+json");
                     ("Cache-Control", HText "public, max-age=300");
                     ("Last-Modified", HDate (mtime f))] ∧
        calls w' = calls w ++ [Stat filePath; CreateReadStream filePath]
    | None =>
        status r = 404 ∧ body r = ErrorBody "Not found" ∧
        calls w' = calls w ++ [Stat filePath]
    end.
Proof.
  intros filePath. destruct (files w !! filePath) as [f|] eqn:E.
  - rewrite (get_geojson_found _ _ _ _ E). eexists _, _. split; [done|].
    split; [done|]. repeat split. simpl. by rewrite <- app_assoc.
  - rewrite (get_geojson_missing _ _ _ E). eexists _, _. by repeat split.
Qed.

End HandlerFrames.

Section PathSuffix.
Local Open Scope string_scope.
Local Open Scope list_scope.

Lemma append_cancel_r a b c : a +:+ c = b +:+ c → a = b.
Proof.
  revert b. induction a as [|x a IH]; intros [|y b]; simpl; try done.
  - intros E. apply (f_equal String.length) in E.
    rewrite !length_append in E. simpl in E. lia.
  - intros E. apply (f_equal String.length) in E.
    rewrite !length_append in E. simpl in E. lia.
  - intros E. change (String x (a +:+ c) = String y (b +:+ c)) in E.
    injection E as -> E. f_equal. by apply IH.
Qed.

Lemma filePath_of_inj dirname id1 id2 :
  normal_path dirname → has_slash id1 = false → has_slash id2 = false →
  filePath_of dirname id1 = filePath_of dirname id2 → id1 = id2.
Proof.
  intros Hd H1 H2. rewrite !filePath_of_plain by done.
  intros [= E]%app_inv_head. by apply append_cancel_r in E.
Qed.

Lemma split_slash_suffix a ext :
  has_slash ext = false →
  ∃ front name, split_slash (a +:+ ext) = front ++ [name +:+ ext].
Proof.
  intros He. induction a as [|c a (front & name & IH)].
  - exists [], EmptyString. simpl. by apply split_slash_plain.
  - simpl. case_decide.
    + exists (EmptyString :: front), name. by rewrite IH.
    + rewrite IH. destruct front as [|x front]; simpl.
      * by exists [], (String c name).
      * by exists (String c x :: front), name.
Qed.

Lemma filePath_of_suffix dirname id :
  ∃ dir name, filePath_of dirname id = dir ++ [name +:+ ".geojson"].
Proof.
  unfold filePath_of, path_join, normalize.
  destruct (split_slash_suffix id ".geojson" eq_refl) as (front & name & ->).
  rewrite app_assoc, fold_left_app. simpl.
  eexists _, name. apply normalize_step_plain.
  rewrite length_append. simpl. lia.
Qed.

End PathSuffix.

Section HandlerComposition.
Context `{JSNumber} (__dirname : path).
Local Open Scope string_scope.
Local Open Scope list_scope.

(** X5. Whatever the identifier, the path retrieval forms ends in a name
    with the suffix [.geojson], and the only file-system calls retrieval
    adds are [stat] and a read stream on that path. *)
Theorem retrieval_reads_geojson_files_only id w :
  ∃ dir name,
    filePath_of __dirname id = dir ++ [name +:+ ".geojson"] ∧
    ∃ r w', get_geojson __dirname id w = (inl r, w') ∧
      ∀ c, c ∈ calls w' → c ∈ calls w ∨
        c = Stat (dir ++ [name +:+ ".geojson"]) ∨
        c = CreateReadStream (dir ++ [name +:+ ".geojson"]).
Proof.
  destruct (filePath_of_suffix __dirname id) as (dir & name & E).
  exists dir, name. split; [done|]. rewrite <- E.
  destruct (files w !! filePath_of __dirname id) as [f|] eqn:Ef.
  - rewrite (get_geojson_found _ _ _ _ Ef). eexists _, _. split; [done|].
    simpl. intros c. rewrite !elem_of_app, !list_elem_of_singleton. tauto.
  - rewrite (get_geojson_missing _ _ _ Ef). eexists _, _. split; [done|].
    simpl. intros c. rewrite !elem_of_app, !list_elem_of_singleton. tauto.
Qed.

(** X6. Two successful uploads under distinct identifiers do not
    interfere: afterwards each identifier retrieves its own document. *)
Theorem uploads_do_not_interfere env1 env2 req1 req2 D1 D2 v1 v2 w :
  normal_path __dirname →
  has_slash (uuid env1) = false → has_slash (uuid env2) = false →
  uuid env1 ≠ uuid env2 →
  request_json req1 = Some D1 → geojsonSchema [] (Some D1) = OK (Some v1) →
  write_ends env1 = WriteCompletes →
  request_json req2 = Some D2 → geojsonSchema [] (Some D2) = OK (Some v2) →
  write_ends env2 = WriteCompletes →
  ∃ r1 w1 r2 w2,
    post_geojson __dirname env1 req1 w = (inl r1, w1) ∧
    post_geojson __dirname env2 req2 w1 = (inl r2, w2) ∧
    status r1 = 201 ∧ status r2 = 201 ∧
    (∃ r w3, get_geojson __dirname (uuid env1) w2 = (inl r, w3) ∧
       body r = Stream (Some (JSON_stringify v1 2))) ∧
    (∃ r w3, get_geojson __dirname (uuid env2) w2 = (inl r, w3) ∧
       body r = Stream (Some (JSON_stringify v2 2))).
Proof.
  intros Hd Hs1 Hs2 Hne Hr1 Hv1 Hw1 Hr2 Hv2 Hw2.
  eexists _, _, _, _.
  split; [exact (post_geojson_written _ _ _ _ _ w Hr1 Hv1 Hw1)|].
  split; [exact (post_geojson_written _ _ _ _ _ _ Hr2 Hv2 Hw2)|].
  split; [done|]. split; [done|].
  assert (Hp : filePath_of __dirname (uuid env2) ≠ filePath_of __dirname (uuid env1)).
  { intros E. apply filePath_of_inj in E; done. }
  split.
  - eexists _, _. split.
    + apply get_geojson_found. simpl.
      rewrite lookup_insert_ne by done. apply lookup_insert_eq.
    + reflexivity.
  - eexists _, _. split.
    + apply get_geojson_found. simpl. apply lookup_insert_eq.
    + reflexivity.
Qed.

(** X7. The write does not check for an existing file: were an identifier
    generated twice, the second upload would replace the first document,
    and retrieval would return the second. *)
Theorem reused_identifier_overwrites env1 env2 req1 req2 D1 D2 v1 v2 w :
  uuid env2 = uuid env1 →
  request_json req1 = Some D1 → geojsonSchema [] (Some D1) = OK (Some v1) →
  write_ends env1 = WriteCompletes →
  request_json req2 = Some D2 → geojsonSchema [] (Some D2) = OK (Some v2) →
  write_ends env2 = WriteCompletes →
  ∃ r1 w1 r2 w2,
    post_geojson __dirname env1 req1 w = (inl r1, w1) ∧
    post_geojson __dirname env2 req2 w1 = (inl r2, w2) ∧
    status r1 = 201 ∧ status r2 = 201 ∧
    ∃ r w3, get_geojson __dirname (uuid env1) w2 = (inl r, w3) ∧
      body r = Stream (Some (JSON_stringify v2 2)).
Proof.
  intros Hid Hr1 Hv1 Hw1 Hr2 Hv2 Hw2.
  eexists _, _, _, _.
  split; [exact (post_geojson_written _ _ _ _ _ w Hr1 Hv1 Hw1)|].
  split; [exact (post_geojson_written _ _ _ _ _ _ Hr2 Hv2 Hw2)|].
  split; [done|]. split; [done|].
  eexists _, _. split.
  - apply get_geojson_found. simpl. rewrite Hid. apply lookup_insert_eq.
  - reflexivity.
Qed.

End HandlerComposition.

(** * Further properties of the validator *)

Section ValidatedValues.
Context `{JSNumber}.
Local Open Scope string_scope.
Local Open Scope list_scope.

Lemma kept_kept (d : list (string * json)) : kept (kept d) = kept d.
Proof.
  unfold kept. induction d as [|[k v] d IH]; [done|].
  rewrite filter_cons. case_decide; [|done].
  rewrite filter_cons. rewrite decide_True by done. by rewrite IH.
Qed.

Lemma is_feature_fixed x y : is_feature x y → is_feature y y.
Proof.
  intros (m & g & t & -> & Ht & Hg & Hgt & Hkind & Hp & ->).
  exists (("type", JStr "Feature") :: ("geometry", parsed_geometry t g) ::
          member "properties" (parsed_properties (obj_get "properties" m))),
    (("type", JStr t) :: member "coordinates" (obj_get "coordinates" g)), t.
  assert (Hc : parsed_geometry t
      (("type", JStr t) :: member "coordinates" (obj_get "coordinates" g)) =
      parsed_geometry t g).
  { unfold parsed_geometry. by destruct (obj_get "coordinates" g). }
  split; [reflexivity|]. split; [reflexivity|]. split; [reflexivity|].
  split; [reflexivity|]. split; [done|].
  unfold parsed_feature. rewrite Hc.
  destruct Hp as [Hp | (d & Hp)]; rewrite Hp; simpl.
  - split; [by left|done].
  - split; [right; by eexists|]. by rewrite kept_kept.
Qed.

Lemma are_features_fixed fs vs : Forall2 is_feature fs vs → Forall2 is_feature vs vs.
Proof.
  induction 1 as [|x y fs vs Hxy _ IH]; constructor; [|done].
  by eapply is_feature_fixed.
Qed.

Lemma accepted_fixed x y :
  is_featureCollection x y ∨ is_feature x y →
  is_featureCollection y y ∨ is_feature y y.
Proof.
  intros [Hfc|Hf].
  - left. destruct Hfc as (m & fs & vs & -> & Ht & Hfs & Hvs & ->).
    eexists _, vs, vs. split; [reflexivity|]. split; [reflexivity|].
    split; [reflexivity|]. split; [|done]. by eapply are_features_fixed.
  - right. by eapply is_feature_fixed.
Qed.

(** X8. Validation is idempotent: what the schema returns for an accepted
    document is itself accepted, and returned unchanged. *)
Theorem validation_is_idempotent path D v :
  geojsonSchema path (Some D) = OK (Some v) →
  geojsonSchema path (Some v) = OK (Some v).
Proof.
  intros (x & y & [= <-] & [= <-] & Hxy)%geojsonSchema_OK.
  apply geojsonSchema_OK. exists v, v.
  split; [done|]. split; [done|].
  by eapply accepted_fixed.
Qed.

(** X10. A Feature whose [properties] member is present and is not an
    object ([null], a string, an array, ...) is rejected. *)
Theorem properties_must_be_an_object path m p :
  obj_get "properties" m = Some p →
  (∀ d, p ≠ JObj d) →
  ∃ issues, feature path (Some (JObj m)) = INVALID issues.
Proof.
  intros Hp Hno. destruct (feature path (Some (JObj m))) as [v|issues] eqn:E;
    [|by eexists].
  apply feature_OK in E as (x & y & [= <-] & -> & Hf).
  destruct Hf as (m' & g & t & [= <-] & _ & _ & _ & _ & [Hnone | (d & Hd)] & _).
  - congruence.
  - rewrite Hp in Hd. injection Hd as ->. by destruct (Hno d).
Qed.

(** X11. An object whose [type] is [FeatureCollection] is accepted exactly
    when its [features] member is an array and the Feature schema accepts
    every element of it. *)
Theorem collection_is_accepted_iff_every_feature_is m :
  obj_get "type" m = Some (JStr "FeatureCollection") →
  (∃ v, geojsonSchema [] (Some (JObj m)) = OK v) ↔
  ∃ fs, obj_get "features" m = Some (JArr fs) ∧
        Forall (λ x, ∃ y, feature [] (Some x) = OK (Some y)) fs.
Proof.
  intros Ht. split.
  - intros (v & (x & y & [= <-] & -> & [Hfc|Hf])%geojsonSchema_OK).
    + destruct Hfc as (m' & fs & vs & [= <-] & _ & Hfs & Hvs & _).
      exists fs. split; [done|]. clear -Hvs.
      induction Hvs as [|x y fs vs Hxy _ IH]; constructor; [|done].
      exists y. apply feature_OK. by exists x, y.
    + destruct Hf as (m' & g & t & [= <-] & Ht' & _). congruence.
  - intros (fs & Hfs & Hall).
    assert (Hvs : ∃ vs, Forall2 is_feature fs vs).
    { clear -Hall. induction Hall as [|x fs (y & Hy) _ (vs & IH)]; [by exists []|].
      apply feature_OK in Hy as (x' & y' & [= <-] & [= <-] & Hxy).
      exists (y :: vs). by constructor. }
    destruct Hvs as (vs & Hvs).
    exists (Some (JObj [("type", JStr "FeatureCollection"); ("features", JArr vs)])).
    apply geojsonSchema_OK.
    eexists _, _. split; [reflexivity|]. split; [reflexivity|]. left.
    exists m, fs, vs. by repeat split.
Qed.

End ValidatedValues.

Section Reupload.
Context `{JSNumber} {laws : JSNumberLaws} (__dirname : path).
Local Open Scope string_scope.
Local Open Scope list_scope.

(** X9. The stored bytes are a fixed point of the pipeline: uploading,
    as a file, the bytes a successful upload has stored is accepted and
    stores the very same bytes under the new identifier. *)
Theorem reupload_stores_the_same_bytes env1 env2 req D v file w :
  request_json req = Some D →
  geojsonSchema [] (Some D) = OK (Some v) →
  write_ends env1 = WriteCompletes → write_ends env2 = WriteCompletes →
  ∃ r1 w1 bytes,
    post_geojson __dirname env1 req w = (inl r1, w1) ∧
    content <$> files w1 !! filePath_of __dirname (uuid env1) = Some bytes ∧
    (buffer file = bytes →
     ∃ r2 w2,
       post_geojson __dirname env2 (Multipart file) w1 = (inl r2, w2) ∧
       status r2 = 201 ∧
       content <$> files w2 !! filePath_of __dirname (uuid env2) = Some bytes).
Proof.
  intros Hreq Hv Hw1 Hw2.
  eexists _, _, (JSON_stringify v 2).
  split; [exact (post_geojson_written _ _ _ _ _ w Hreq Hv Hw1)|].
  split; [simpl; by rewrite lookup_insert_eq|].
  intros Hbuf.
  assert (Hwf : wf_json v).
  { eapply validated_wf; [|exact Hv]. by eapply request_json_wf. }
  assert (Hreq2 : request_json (Multipart file) = Some v).
  { unfold request_json. simpl. rewrite Hbuf. by apply JSON_parse_stringify. }
  assert (Hv2 : geojsonSchema [] (Some v) = OK (Some v)).
  { apply geojsonSchema_OK in Hv as (x & y & [= <-] & [= <-] & Hxy).
    apply geojsonSchema_OK. exists v, v. split; [done|]. split; [done|].
    by eapply accepted_fixed. }
  eexists _, _.
  split; [exact (post_geojson_written _ _ _ _ _ _ Hreq2 Hv2 Hw2)|].
  split; [done|]. simpl. by rewrite lookup_insert_eq.
Qed.

End Reupload.

(** * The upload filter and the browser side *)

Section UploadFilterFacts.
Local Open Scope string_scope.
Local Open Scope list_scope.

Lemma endsWith_eq s suffix :
  endsWith s suffix =
    String.eqb s suffix ||
    match s with EmptyString => false | String _ r => endsWith r suffix end.
Proof. by destruct s. Qed.

Lemma endsWith_spec s suffix :
  endsWith s suffix = true ↔ ∃ p, s = p +:+ suffix.
Proof.
  induction s as [|c r IH]; rewrite endsWith_eq, orb_true_iff, String.eqb_eq.
  - split.
    + intros [<-|?]; [by exists EmptyString|done].
    + intros ([|??] & E); [by left|discriminate E].
  - rewrite IH. split.
    + intros [<- | (p & ->)]; [by exists EmptyString | by exists (String c p)].
    + intros ([|c' p] & E); [by left|].
      right. exists p. by injection E.
Qed.

Lemma toLowerCase_app a b :
  toLowerCase (a +:+ b) = toLowerCase a +:+ toLowerCase b.
Proof.
  induction a as [|c a IH]; [done|].
  change (String (lower_char c) (toLowerCase (a +:+ b)) =
          String (lower_char c) (toLowerCase a +:+ toLowerCase b)).
  by rewrite IH.
Qed.

Lemma toLowerCase_split s p q :
  toLowerCase s = p +:+ q →
  ∃ a b, s = a +:+ b ∧ toLowerCase a = p ∧ toLowerCase b = q.
Proof.
  revert s. induction p as [|c p IH]; intros s E.
  - by exists EmptyString, s.
  - destruct s as [|c' s]; [discriminate E|].
    simpl in E. change (String (lower_char c') (toLowerCase s) = String c (p +:+ q)) in E.
    injection E as Ec E.
    destruct (IH _ E) as (a & b & -> & <- & <-).
    exists (String c' a), b. by rewrite <- Ec.
Qed.

Lemma lowered_endsWith name suffix :
  endsWith (toLowerCase name) suffix = true ↔
  ∃ stem ext, name = stem +:+ ext ∧ toLowerCase ext = suffix.
Proof.
  rewrite endsWith_spec. split.
  - intros (p & (a & b & -> & _ & Hb)%toLowerCase_split). by exists a, b.
  - intros (a & b & -> & <-). exists (toLowerCase a). apply toLowerCase_app.
Qed.

(** X12. The upload filter accepts a file exactly when its declared type is
    one of the two JSON media types or its name ends in [.geojson] or
    [.json] written in any mix of letter cases; the content is not looked
    at, and the error is absent exactly when the file is accepted. *)
Theorem fileFilter_verdict (file : uploaded_file) :
  ((fileFilter file).2 = true ↔
     mimetype file = "application/geo+json" ∨
     mimetype file = "application/json" ∨
     ∃ stem ext, originalname file = stem +:+ ext ∧
                 (toLowerCase ext = ".geojson" ∨ toLowerCase ext = ".json")) ∧
  ((fileFilter file).1 = None ↔ (fileFilter file).2 = true) ∧
  ((fileFilter file).1 = Some "Unsupported file type" ↔ (fileFilter file).2 = false).
Proof.
  unfold fileFilter. cbn [fst snd]. split; [|split].
  - rewrite !orb_true_iff, !String.eqb_eq, !lowered_endsWith. split.
    + intros [[[?|?]|(a & b & ? & ?)]|(a & b & ? & ?)]; eauto 10.
    + intros [?|[?|(a & b & ? & [?|?])]]; eauto 10.
  - by destruct (_ || _).
  - by destruct (_ || _).
Qed.

End UploadFilterFacts.

Section UploaderFacts.
Context `{JSNumber}.
Import QArith_base.
Local Close Scope Q_scope.
Local Open Scope string_scope.
Local Open Scope list_scope.

Lemma accepted_isFeatureOrFC D v :
  geojsonSchema [] (Some D) = OK v → isFeatureOrFC D = true.
Proof.
  intros (x & y & [= <-] & _ & [Hfc|Hf])%geojsonSchema_OK.
  - destruct Hfc as (m & fs & vs & -> & Ht & _). simpl. by rewrite Ht.
  - destruct Hf as (m & g & t & -> & Ht & _). simpl. by rewrite Ht.
Qed.

Lemma size_guard (n : Z) (size : N) :
  (inject_Z n < inject_Z (Z.of_N size) / inject_Z (1024 * 1024))%Q ↔
  (n * 1048576 < Z.of_N size)%Z.
Proof.
  unfold Qlt, Qdiv, Qmult, Qinv, inject_Z. simpl. lia.
Qed.

(** X13. A document the server's schema accepts passes the uploader's own
    check: a file within the size limit whose text parses to it is handed
    to [onLoad] unchanged, without an alert. *)
Theorem uploader_loads_what_the_server_accepts
    maxSizeMB (f : picked_file) text D v value :
  (inject_Z (Z.of_N (file_size f)) / inject_Z (1024 * 1024) <= maxSizeMB)%Q →
  file_text f = Some text →
  JSON_parse text = Some D →
  geojsonSchema [] (Some D) = OK v →
  handleChange maxSizeMB (Some f) value =
    {| alerts := []; loaded := [D]; input_value := EmptyString |}.
Proof.
  intros Hsize Ht Hp Hv. unfold handleChange.
  destruct (Qlt_le_dec _ _) as [Hlt|_].
  { exfalso. by eapply Qlt_not_le. }
  rewrite Ht. simpl. rewrite Hp.
  by rewrite (accepted_isFeatureOrFC _ _ Hv).
Qed.

(** X14. The size guard of the uploader in bytes: with a limit of [n]
    megabytes a file is refused, unread, exactly when it has more than
    [n * 1048576] bytes. *)
Theorem uploader_size_guard (n : Z) (f : picked_file) value :
  let out := handleChange (inject_Z n) (Some f) value in
  ((n * 1048576 < Z.of_N (file_size f))%Z →
     out = {| alerts := [FileTooLarge
                (inject_Z (Z.of_N (file_size f)) / inject_Z (1024 * 1024))%Q
                (inject_Z n)];
              loaded := []; input_value := EmptyString |}) ∧
  ((Z.of_N (file_size f) ≤ n * 1048576)%Z →
     ∀ s m, FileTooLarge s m ∉ alerts out).
Proof.
  cbv zeta. unfold handleChange. split.
  - intros Hlt. destruct (Qlt_le_dec _ _) as [_|Hle]; [done|].
    apply size_guard in Hlt. exfalso. by eapply Qlt_not_le.
  - intros Hle s m. destruct (Qlt_le_dec _ _) as [Hlt|_].
    { apply size_guard in Hlt. lia. }
    destruct (file_text f ≫= JSON_parse) as [j|]; [destruct (isFeatureOrFC j)|];
      simpl; intros Hin;
      first [by apply elem_of_nil in Hin | by apply list_elem_of_singleton in Hin].
Qed.

(** X15. Whatever file is chosen, the input is reset; [onLoad] is called at
    most once and never together with an alert; what it receives is the
    parsed text of the file, an object whose [type] is [Feature] or
    [FeatureCollection]; otherwise exactly one alert is shown. *)
Theorem uploader_loads_or_alerts maxSizeMB (f : picked_file) value :
  let out := handleChange maxSizeMB (Some f) value in
  input_value out = EmptyString ∧
  ((∃ text j m t,
      loaded out = [j] ∧ alerts out = [] ∧
      file_text f = Some text ∧ JSON_parse text = Some j ∧
      j = JObj m ∧ obj_get "type" m = Some (JStr t) ∧
      (t = "FeatureCollection" ∨ t = "Feature")) ∨
   (loaded out = [] ∧ ∃ a, alerts out = [a])).
Proof.
  cbv zeta. unfold handleChange.
  destruct (Qlt_le_dec _ _) as [Hlt|_]; [split; [done|right; eauto]|].
  destruct (file_text f) as [text|] eqn:Et; simpl; [|split; [done|right; eauto]].
  destruct (JSON_parse text) as [j|] eqn:Ej; [|split; [done|right; eauto]].
  destruct (isFeatureOrFC j) eqn:Ef; [|split; [done|right; eauto]].
  split; [done|left]. unfold isFeatureOrFC in Ef.
  destruct j as [| | | | |m]; try done.
  destruct (obj_get "type" m) as [[| | |t| |]|] eqn:Em; try done.
  apply orb_true_iff in Ef. rewrite !String.eqb_eq in Ef.
  by exists text, (JObj m), m, t.
Qed.

End UploaderFacts.

Section NameFacts.
Context `{JSNumber} (number_truthy : number → bool).
Local Open Scope string_scope.
Local Open Scope list_scope.

Lemma foldl_js_or (a d : jsval) (l : list jsval) :
  truthy number_truthy d = true →
  foldl (js_or number_truthy) a (l ++ [d]) =
    default d (head (filter (λ v, truthy number_truthy v = true) (a :: l))).
Proof.
  intros Hd. revert a. induction l as [|b l IH]; intros a.
  - simpl. unfold js_or. destruct (truthy number_truthy a) eqn:Ea.
    + by rewrite filter_cons_True.
    + by rewrite filter_cons_False by (by rewrite Ea).
  - simpl. rewrite IH. unfold js_or. destruct (truthy number_truthy a) eqn:Ea.
    + by rewrite !(filter_cons_True _ a).
    + by rewrite (filter_cons_False _ a) by (by rewrite Ea).
Qed.

Lemma js_or_None (b : jsval) : js_or number_truthy None b = b.
Proof. done. Qed.

Lemma resolveName_eq entity_name propsObj :
  resolveName number_truthy entity_name propsObj =
    default (Some (JStr "Unnamed Feature"))
      (head (filter (λ v, truthy number_truthy v = true)
               ((JStr <$> entity_name) ::
                ((λ k, obj_get k propsObj) <$> name_keys)))).
Proof. unfold resolveName. by rewrite <- foldl_js_or. Qed.

Lemma head_filter_elem {A} (P : A → Prop) `{!∀ x, Decision (P x)} l x :
  head (filter P l) = Some x → x ∈ l ∧ P x.
Proof.
  intros Hx. assert (Hin : x ∈ filter P l).
  { destruct (filter P l); [done|]. injection Hx as ->. apply list_elem_of_here. }
  apply list_elem_of_filter in Hin as [? ?]. done.
Qed.

(** X16. [resolveName] returns the first truthy value among the entity's
    name and the thirteen properties it consults, in their order, and
    [Unnamed Feature] when none is truthy; what it returns is always
    truthy. *)
Theorem resolveName_first_truthy entity_name propsObj :
  resolveName number_truthy entity_name propsObj =
    default (Some (JStr "Unnamed Feature"))
      (head (filter (λ v, truthy number_truthy v = true)
               ((JStr <$> entity_name) ::
                ((λ k, obj_get k propsObj) <$> name_keys)))) ∧
  truthy number_truthy (resolveName number_truthy entity_name propsObj) = true.
Proof.
  split; [apply resolveName_eq|]. rewrite resolveName_eq.
  destruct (head _) as [x|] eqn:Ex; [|done].
  by apply head_filter_elem in Ex as [_ ?].
Qed.

(** X17. When every property of the feature holds a string, the name is a
    string that is not empty. *)
Theorem resolveName_of_strings entity_name propsObj :
  Forall (λ kv, ∃ s, kv.2 = JStr s) propsObj →
  ∃ s, resolveName number_truthy entity_name propsObj = Some (JStr s) ∧
       s ≠ EmptyString.
Proof.
  intros Hall. rewrite resolveName_eq.
  destruct (head _) as [x|] eqn:Ex; [|by eexists].
  apply head_filter_elem in Ex as [Hx Ht].
  assert (Hs : ∃ s, x = Some (JStr s)).
  { apply elem_of_cons in Hx as [->|Hx].
    - destruct entity_name; [by eexists|done].
    - apply list_elem_of_fmap in Hx as (k & -> & _).
      destruct (obj_get k propsObj) as [v|] eqn:Ek; [|done].
      apply obj_get_elem in Ek.
      rewrite Forall_forall in Hall. destruct (Hall _ Ek) as (s & Hs).
      simpl in Hs. subst v. by eexists. }
  destruct Hs as (s & ->). exists s. split; [done|].
  simpl in Ht. intros ->. done.
Qed.

(** X18. The name is not always a string: for an entity without a name
    whose only property, one of the thirteen, holds a truthy value, that
    value is returned as it is. *)
Theorem resolveName_returns_the_property k x :
  k ∈ name_keys →
  truthy number_truthy (Some x) = true →
  resolveName number_truthy None [(k, x)] = Some x.
Proof.
  intros Hk Hx. unfold name_keys in Hk.
  assert (Hor : ∀ b, js_or number_truthy (Some x) b = Some x).
  { intros b. unfold js_or. by rewrite Hx. }
  repeat (apply elem_of_cons in Hk as [->|Hk]);
    [unfold resolveName; simpl; by rewrite ?js_or_None, ?Hor ..|].
  by apply elem_of_nil in Hk.
Qed.

End NameFacts.

(** * Further examples *)

Section FurtherExamples.
Import QArith_base.
Local Close Scope Q_scope.
Local Open Scope string_scope.
Local Open Scope list_scope.

(** The upload of the empty collection to an empty disk. *)
Lemma post_geojson_touches_one_file_witness :
  ∃ r w',
    post_geojson (H := IntegerNumbers.Z_number) example_dirname
      (example_env WriteCompletes) (JsonBody empty_collection) empty_world =
      (inl r, w') ∧
    status r = 201 ∧
    (∀ p, p ≠ filePath_of example_dirname example_id →
          files w' !! p = files empty_world !! p) ∧
    ∃ data,
      body r = Created example_id ("/api/geojson/" +:+ example_id)
                 (String.length data) ∧
      files w' !! filePath_of example_dirname example_id =
        Some {| content := data; mtime := 1700000000000 |}.
Proof.
  pose proof (post_geojson_written (H := IntegerNumbers.Z_number)
                example_dirname (example_env WriteCompletes)
                (JsonBody empty_collection) empty_collection empty_collection
                empty_world eq_refl eq_refl eq_refl) as Hrun.
  eexists _, _. split; [exact Hrun|]. split; [reflexivity|].
  destruct (post_geojson_touches_one_file example_dirname _ _ _ _ _ Hrun)
    as (_ & Hothers & _ & Hfile).
  split; [exact Hothers | exact (Hfile eq_refl)].
Defined.

(** A file holding a lone brace. *)
Lemma unreadable_upload_is_rejected_witness :
  request_json (H := IntegerNumbers.Z_number) broken_upload = None ∧
  post_geojson example_dirname (example_env WriteCompletes) broken_upload
    empty_world =
    (inl (res_json 400 (ErrorBody "Invalid JSON")), empty_world).
Proof.
  split; [reflexivity|].
  exact (unreadable_upload_is_rejected (H := IntegerNumbers.Z_number)
           example_dirname (example_env WriteCompletes) broken_upload
           empty_world eq_refl).
Defined.

(** The empty collection, then [feature_with_id], under two identifiers. *)
Lemma uploads_do_not_interfere_witness :
  example_id ≠ other_id ∧
  ∃ r1 w1 r2 w2,
    post_geojson (H := IntegerNumbers.Z_number) example_dirname
      (example_env WriteCompletes) (JsonBody empty_collection) empty_world =
      (inl r1, w1) ∧
    post_geojson example_dirname other_env (JsonBody feature_with_id) w1 =
      (inl r2, w2) ∧
    status r1 = 201 ∧ status r2 = 201 ∧
    (∃ r w3, get_geojson example_dirname example_id w2 = (inl r, w3) ∧
       body r = Stream (Some (JSON_stringify empty_collection 2))) ∧
    (∃ r w3, get_geojson example_dirname other_id w2 = (inl r, w3) ∧
       body r = Stream (Some (JSON_stringify stripped_feature_with_id 2))).
Proof.
  assert (Hne : example_id ≠ other_id) by discriminate.
  split; [exact Hne|].
  exact (uploads_do_not_interfere (H := IntegerNumbers.Z_number)
           example_dirname (example_env WriteCompletes) other_env
           (JsonBody empty_collection) (JsonBody feature_with_id)
           empty_collection feature_with_id
           empty_collection stripped_feature_with_id empty_world
           example_dirname_normal eq_refl eq_refl Hne
           eq_refl eq_refl eq_refl eq_refl eq_refl eq_refl).
Defined.

(** The same two uploads under one identifier. *)
Lemma reused_identifier_overwrites_witness :
  ∃ r1 w1 r2 w2,
    post_geojson (H := IntegerNumbers.Z_number) example_dirname
      (example_env WriteCompletes) (JsonBody empty_collection) empty_world =
      (inl r1, w1) ∧
    post_geojson example_dirname (example_env WriteCompletes)
      (JsonBody feature_with_id) w1 = (inl r2, w2) ∧
    status r1 = 201 ∧ status r2 = 201 ∧
    ∃ r w3, get_geojson example_dirname example_id w2 = (inl r, w3) ∧
      body r = Stream (Some (JSON_stringify stripped_feature_with_id 2)).
Proof.
  exact (reused_identifier_overwrites (H := IntegerNumbers.Z_number)
           example_dirname (example_env WriteCompletes)
           (example_env WriteCompletes)
           (JsonBody empty_collection) (JsonBody feature_with_id)
           empty_collection feature_with_id
           empty_collection stripped_feature_with_id empty_world
           eq_refl eq_refl eq_refl eq_refl eq_refl eq_refl eq_refl).
Defined.

(** [feature_with_id] and what the schema returns for it. *)
Lemma validation_is_idempotent_witness :
  geojsonSchema (H := IntegerNumbers.Z_number) [] (Some feature_with_id) =
    OK (Some stripped_feature_with_id) ∧
  geojsonSchema [] (Some stripped_feature_with_id) =
    OK (Some stripped_feature_with_id).
Proof.
  split; [reflexivity|].
  exact (validation_is_idempotent (H := IntegerNumbers.Z_number)
           [] feature_with_id stripped_feature_with_id eq_refl).
Defined.

(** The bytes stored for [feature_with_id], uploaded again as a file. *)
Lemma reupload_stores_the_same_bytes_witness :
  ∃ r1 w1 bytes,
    post_geojson (H := IntegerNumbers.Z_number) example_dirname
      (example_env WriteCompletes) (JsonBody feature_with_id) empty_world =
      (inl r1, w1) ∧
    content <$> files w1 !! filePath_of example_dirname example_id = Some bytes ∧
    ∃ r2 w2,
      post_geojson example_dirname other_env
        (Multipart {| originalname := "again.geojson";
                      mimetype := "application/geo+json";
                      buffer := bytes |}) w1 = (inl r2, w2) ∧
      status r2 = 201 ∧
      content <$> files w2 !! filePath_of example_dirname other_id = Some bytes.
Proof.
  destruct (reupload_stores_the_same_bytes (H := IntegerNumbers.Z_number)
              (laws := IntegerLaws.Z_number_laws)
              example_dirname (example_env WriteCompletes) other_env
              (JsonBody feature_with_id) feature_with_id
              stripped_feature_with_id
              {| originalname := "again.geojson";
                 mimetype := "application/geo+json";
                 buffer := JSON_stringify stripped_feature_with_id 2 |}
              empty_world eq_refl eq_refl eq_refl eq_refl)
    as (r1 & w1 & bytes & Hrun & Hbytes & Hagain).
  exists r1, w1, (JSON_stringify stripped_feature_with_id 2).
  assert (Hb : bytes = JSON_stringify stripped_feature_with_id 2).
  { rewrite (post_geojson_written (H := IntegerNumbers.Z_number)
               example_dirname (example_env WriteCompletes)
               (JsonBody feature_with_id) feature_with_id
               stripped_feature_with_id empty_world eq_refl eq_refl eq_refl)
      in Hrun.
    injection Hrun as <- <-. simpl in Hbytes.
    rewrite lookup_insert_eq in Hbytes. by injection Hbytes. }
  subst bytes. split; [exact Hrun|]. split; [exact Hbytes|].
  exact (Hagain eq_refl).
Defined.

(** A Feature with [properties] set to [null]. *)
Lemma properties_must_be_an_object_witness :
  obj_get (H := IntegerNumbers.Z_number) "properties"
    feature_with_null_properties = Some JNull ∧
  ∃ issues,
    feature [] (Some (JObj feature_with_null_properties)) = INVALID issues.
Proof.
  split; [reflexivity|].
  exact (properties_must_be_an_object (H := IntegerNumbers.Z_number)
           [] feature_with_null_properties JNull eq_refl
           ltac:(discriminate)).
Defined.

(** A collection of one Feature with [null] properties. *)
Lemma collection_is_accepted_iff_every_feature_is_witness :
  (∃ v, geojsonSchema (H := IntegerNumbers.Z_number) []
          (Some (JObj [("type", JStr "FeatureCollection");
                       ("features", JArr [JObj feature_with_null_properties])])) =
        OK v) ↔
  ∃ fs, obj_get "features"
          [("type", JStr "FeatureCollection");
           ("features", JArr [JObj feature_with_null_properties])] =
          Some (JArr fs) ∧
        Forall (λ x, ∃ y, feature [] (Some x) = OK (Some y)) fs.
Proof.
  exact (collection_is_accepted_iff_every_feature_is
           (H := IntegerNumbers.Z_number)
           [("type", JStr "FeatureCollection");
            ("features", JArr [JObj feature_with_null_properties])] eq_refl).
Defined.

(** The empty collection picked in the browser, with the default limit. *)
Lemma uploader_loads_what_the_server_accepts_witness :
  handleChange (H := IntegerNumbers.Z_number) (inject_Z 10)
    (Some picked_empty_collection) "C:\fakepath\empty.geojson" =
    {| alerts := []; loaded := [empty_collection]; input_value := EmptyString |}.
Proof.
  apply (uploader_loads_what_the_server_accepts (H := IntegerNumbers.Z_number)
           (inject_Z 10) picked_empty_collection
           (JSON_stringify empty_collection 0) empty_collection
           (Some empty_collection));
    [unfold Qle; simpl; lia | reflexivity ..].
Defined.

(** A feature named by its [Name] property. *)
Lemma resolveName_of_strings_witness :
  ∃ s, resolveName (H := IntegerNumbers.Z_number) (λ n : Z, negb (n =? 0)%Z)
         None [("Name", JStr "Taunsa"); ("river", JStr "Indus")] =
         Some (JStr s) ∧
       s ≠ EmptyString.
Proof.
  apply (resolveName_of_strings (H := IntegerNumbers.Z_number)).
  repeat constructor; by eexists.
Defined.

(** A feature whose only property is a numeric [id]. *)
Lemma resolveName_returns_the_property_witness :
  resolveName (H := IntegerNumbers.Z_number) (λ n : Z, negb (n =? 0)%Z)
    None [("id", JNum 7%Z)] = Some (JNum 7%Z).
Proof.
  apply (resolveName_returns_the_property (H := IntegerNumbers.Z_number));
    [compute_done | reflexivity].
Defined.

End FurtherExamples.
